(** * Grid kernels of the simulation library: pheromone field and spatial hash

    A shallow embedding of [src/ants/pheromone.ts] and
    [src/boids/spatial-hash.ts], and the properties stated about them.

    Conventions of the embedding
    - A JavaScript [number] holding a value is an exact rational, or one of
      [Infinity], [-Infinity], [NaN].  Rounding (to double, and to single
      precision on a store into a [Float32Array]), overflow and the sign of
      zero are not modelled.  [undefined], which an array read outside its
      range yields, is identified with [NaN], which it becomes in arithmetic.
    - Grid coordinates, grid dimensions and array indices are integers ([Z]).
    - Arrays live in a heap and are passed by reference, so that in-place
      mutation and allocation are visible.  Arrays are typed arrays: a write
      outside the range is ignored.  (A plain array would grow instead; inside
      the range the two agree.)
    - Boids are records compared by value; the spatial grid is a finite map
      from key strings to buckets. *)

From Stdlib Require Import QArith Qround Qminmax Lqa ZArith Lia Ascii.
From stdpp Require Import gmap strings list pretty.

(* ================================================================= *)
(** ** JavaScript numbers *)

Module JS.

Inductive num : Type :=
  | Fin (q : Q)
  | PInf
  | NInf
  | NaN.

(** [±Infinity * q] and [±Infinity / q] for a finite [q]; [pos] is the sign
    of the infinity. *)
Definition inf_times (pos : bool) (q : Q) : num :=
  match (q ?= 0)%Q with
  | Gt => if pos then PInf else NInf
  | Lt => if pos then NInf else PInf
  | Eq => NaN
  end.

Definition inf_over (pos : bool) (q : Q) : num :=
  match (q ?= 0)%Q with
  | Lt => if pos then NInf else PInf
  | _ => if pos then PInf else NInf
  end.

Definition neg (a : num) : num :=
  match a with
  | Fin q => Fin (- q)
  | PInf => NInf
  | NInf => PInf
  | NaN => NaN
  end.

Definition add (a b : num) : num :=
  match a, b with
  | Fin x, Fin y => Fin (x + y)
  | NaN, _ | _, NaN => NaN
  | PInf, NInf | NInf, PInf => NaN
  | PInf, _ | _, PInf => PInf
  | NInf, _ | _, NInf => NInf
  end.

Definition sub (a b : num) : num := add a (neg b).

Definition mul (a b : num) : num :=
  match a, b with
  | Fin x, Fin y => Fin (x * y)
  | NaN, _ | _, NaN => NaN
  | Fin x, PInf | PInf, Fin x => inf_times true x
  | Fin x, NInf | NInf, Fin x => inf_times false x
  | PInf, PInf | NInf, NInf => PInf
  | PInf, NInf | NInf, PInf => NInf
  end.

Definition div (a b : num) : num :=
  match a, b with
  | Fin x, Fin y =>
      match (y ?= 0)%Q with
      | Eq => match (x ?= 0)%Q with Gt => PInf | Lt => NInf | Eq => NaN end
      | _ => Fin (x / y)
      end
  | NaN, _ | _, NaN => NaN
  | Fin _, _ => Fin 0
  | PInf, Fin y => inf_over true y
  | NInf, Fin y => inf_over false y
  | _, _ => NaN
  end.

(** [Math.min]: [NaN] if either argument is [NaN]. *)
Definition min (a b : num) : num :=
  match a, b with
  | NaN, _ | _, NaN => NaN
  | NInf, _ | _, NInf => NInf
  | PInf, c | c, PInf => c
  | Fin x, Fin y => Fin (Qmin x y)
  end.

(** [Math.floor]. *)
Definition floor (a : num) : num :=
  match a with
  | Fin q => Fin (inject_Z (Qfloor q))
  | _ => a
  end.

Definition of_Z (z : Z) : num := Fin (inject_Z z).

(** The string a template literal makes of a number.  The sources print
    results of [Math.floor] and sums of such with loop counters only, so the
    finite case prints an integer in decimal. *)
Definition toString (a : num) : string :=
  match a with
  | Fin q => pretty (Qfloor q)
  | PInf => "Infinity"
  | NInf => "-Infinity"
  | NaN => "NaN"
  end.

End JS.

Import JS.

(* ================================================================= *)
(** ** Heap of arrays and the monad of array programs *)

Definition loc := positive.
Abbreviation heap := (gmap loc (list num)).

(** A computation reads and writes the heap; [None] is reached only through a
    reference that is not allocated, or through [throw]. *)
Definition M (A : Type) : Type := heap → option (A * heap).

Global Instance M_ret : MRet M := λ A a h, Some (a, h).
Global Instance M_bind : MBind M := λ A B k m h,
  match m h with
  | Some (a, h') => k a h'
  | None => None
  end.

(** A thrown exception: the computation has no result. *)
Definition throw {A} : M A := λ _, None.

(** [arr[i]] on a list of cells. *)
Definition index (v : list num) (i : Z) : num :=
  if (0 <=? i)%Z then default NaN (v !! Z.to_nat i) else NaN.

(** [arr[i] = x] on a list of cells. *)
Definition store (v : list num) (i : Z) (x : num) : list num :=
  if (0 <=? i)%Z then <[Z.to_nat i := x]> v else v.

(** [new Float32Array(n)]: a fresh, zero-filled array. *)
Definition newFloat32Array (n : nat) : M loc := λ h,
  let l := fresh (dom h) in Some (l, <[l := replicate n (Fin 0)]> h).

(** [new Float32Array(n)] for an integer [n]: a negative length throws a
    [RangeError]. *)
Definition newFloat32ArrayZ (n : Z) : M loc :=
  if (n <? 0)%Z then throw else newFloat32Array (Z.to_nat n).

Definition arrayLength (a : loc) : M nat := λ h,
  v ← h !! a; Some (length v, h).

Definition arrayGet (a : loc) (i : Z) : M num := λ h,
  v ← h !! a; Some (index v i, h).

Definition arraySet (a : loc) (i : Z) (x : num) : M unit := λ h,
  v ← h !! a; Some (tt, <[a := store v i x]> h).

(** [for (let i = lo; i < hi; i++) acc = body(i, acc)], the loop variable and
    the bound being untouched by the body. *)
Fixpoint for_iter {A} (n : nat) (i : Z) (acc : A) (body : Z → A → M A) : M A :=
  match n with
  | O => mret acc
  | S n' => acc' ← body i acc; for_iter n' (i + 1)%Z acc' body
  end.

Definition for_range {A} (lo hi : Z) (acc : A) (body : Z → A → M A) : M A :=
  for_iter (Z.to_nat (hi - lo)) lo acc body.

(** The same loop without heap. *)
Fixpoint fold_iter {A} (n : nat) (i : Z) (acc : A) (body : Z → A → A) : A :=
  match n with
  | O => acc
  | S n' => fold_iter n' (i + 1)%Z (body i acc) body
  end.

Definition fold_range {A} (lo hi : Z) (acc : A) (body : Z → A → A) : A :=
  fold_iter (Z.to_nat (hi - lo)) lo acc body.

(* ================================================================= *)
(** ** Pheromone field ([src/ants/pheromone.ts]) *)

Module Pheromone.

Local Open Scope Z_scope.

Definition diffusePheromones (field : loc) (cols rows : Z)
    (diffusionRate evaporationRate : num) : M loc :=
  len ← arrayLength field;
  next ← newFloat32Array len;
  (* Copy edges (no diffusion at boundaries) *)
  for_range 0 cols tt (λ x _,
    a ← arrayGet field x;
    arraySet next x (mul a evaporationRate);;
    b ← arrayGet field (x + (rows - 1) * cols);
    arraySet next (x + (rows - 1) * cols) (mul b evaporationRate));;
  for_range 0 rows tt (λ y _,
    a ← arrayGet field (y * cols);
    arraySet next (y * cols) (mul a evaporationRate);;
    b ← arrayGet field (cols - 1 + y * cols);
    arraySet next (cols - 1 + y * cols) (mul b evaporationRate));;
  (* Diffuse interior cells *)
  for_range 1 (cols - 1) tt (λ x _,
    for_range 1 (rows - 1) tt (λ y _,
      let idx := x + y * cols in
      left ← arrayGet field (idx - 1);
      right ← arrayGet field (idx + 1);
      up ← arrayGet field (idx - cols);
      down ← arrayGet field (idx + cols);
      topLeft ← arrayGet field (idx - 1 - cols);
      topRight ← arrayGet field (idx + 1 - cols);
      bottomLeft ← arrayGet field (idx - 1 + cols);
      bottomRight ← arrayGet field (idx + 1 + cols);
      let sum :=
        add (add (add (add (add (add (add left right) up) down)
          topLeft) topRight) bottomLeft) bottomRight in
      center ← arrayGet field idx;
      let diffused :=
        add (mul center (sub (Fin 1) diffusionRate))
            (mul (div sum (Fin 8)) diffusionRate) in
      arraySet next idx (mul diffused evaporationRate)));;
  mret next.

Definition evaporatePheromones (field : loc) (evaporationRate : num) : M loc :=
  len ← arrayLength field;
  next ← newFloat32Array len;
  for_range 0 (Z.of_nat len) tt (λ i _,
    a ← arrayGet field i;
    arraySet next i (mul a evaporationRate));;
  mret next.

Definition depositPheromone (field : loc) (cols rows x y : Z)
    (amount maxPheromone : num) : M bool :=
  if (x <? 0) || (x >=? cols) || (y <? 0) || (y >=? rows) then mret false
  else
    let idx := x + y * cols in
    old ← arrayGet field idx;
    arraySet field idx (min (add old amount) maxPheromone);;
    mret true.

Definition getPheromoneAt (field : loc) (cols rows x y : Z) : M num :=
  if (x <? 0) || (x >=? cols) || (y <? 0) || (y >=? rows) then mret (Fin 0)
  else arrayGet field (x + y * cols).

Definition getTotalPheromone (field : loc) : M num :=
  len ← arrayLength field;
  for_range 0 (Z.of_nat len) (Fin 0) (λ i total,
    a ← arrayGet field i;
    mret (add total a)).

Definition createPheromoneField (cols rows : Z) : M loc :=
  newFloat32ArrayZ (cols * rows).

Record GridPos := { gx : num; gy : num }.

Definition worldToGrid (worldX worldY gridSize : num) : GridPos :=
  {| gx := floor (div worldX gridSize);
     gy := floor (div worldY gridSize) |}.

End Pheromone.

(* ================================================================= *)
(** ** Spatial hash ([src/boids/spatial-hash.ts], [src/boids/types.ts]) *)

Module SpatialHash.

Record Vector2D := { x : num; y : num }.

Record Boid := {
  pos : Vector2D;
  vel : Vector2D;
  acc : Vector2D;
  maxSpeed : num;
  maxForce : num
}.

(** [Map<string, Boid[]>]; the functions below use [has], [get] and [set]
    only, so the insertion order of the map is not kept. *)
Abbreviation SpatialGrid := (gmap string (list Boid)).

(** The template literal [`${cx},${cy}`]. *)
Definition key_of (cx cy : num) : string :=
  toString cx +:+ "," +:+ toString cy.

Definition has (grid : SpatialGrid) (key : string) : bool :=
  bool_decide (is_Some (grid !! key)).

Definition buildSpatialHash (boids : list Boid) (cellSize : num) : SpatialGrid :=
  foldl (λ grid boid,
    let cellX := floor (div (x (pos boid)) cellSize) in
    let cellY := floor (div (y (pos boid)) cellSize) in
    let key := key_of cellX cellY in
    let grid := if has grid key then grid else <[key := []]> grid in
    match grid !! key with
    | Some bucket => <[key := bucket ++ [boid]]> grid
    | None => grid
    end) ∅ boids.

Definition getNeighbors (boid : Boid) (grid : SpatialGrid) (cellSize : num)
    : list Boid :=
  let cellX := floor (div (x (pos boid)) cellSize) in
  let cellY := floor (div (y (pos boid)) cellSize) in
  fold_range (-1) 2 [] (λ dx neighbors,
    fold_range (-1) 2 neighbors (λ dy neighbors,
      let key := key_of (add cellX (of_Z dx)) (add cellY (of_Z dy)) in
      if has grid key then neighbors ++ default [] (grid !! key)
      else neighbors)).

Definition getCellKey (p : Vector2D) (cellSize : num) : string :=
  let cellX := floor (div (x p) cellSize) in
  let cellY := floor (div (y p) cellSize) in
  key_of cellX cellY.

Definition getCellCount (grid : SpatialGrid) : nat := size grid.

End SpatialHash.

(* ================================================================= *)
(** ** The spatial grid with its iteration order

    A JavaScript [Map] iterates in the order in which its keys were first
    set.  [getAllBoids] depends on that order, so here the grid is the list
    of its entries in that order; [to_gmap] forgets the order. *)

Module OrderedGrid.

Import SpatialHash.

Abbreviation Grid := (list (string * list Boid)).

(** [Map.prototype.get]. *)
Fixpoint grid_get (grid : Grid) (key : string) : option (list Boid) :=
  match grid with
  | [] => None
  | (k, bucket) :: rest =>
      if decide (k = key) then Some bucket else grid_get rest key
  end.

(** [Map.prototype.has]. *)
Definition grid_has (grid : Grid) (key : string) : bool :=
  bool_decide (is_Some (grid_get grid key)).

(** [Map.prototype.set]: a key already set keeps its place, a new key goes
    last. *)
Fixpoint grid_set (grid : Grid) (key : string) (bucket : list Boid) : Grid :=
  match grid with
  | [] => [(key, bucket)]
  | (k, b) :: rest =>
      if decide (k = key) then (k, bucket) :: rest
      else (k, b) :: grid_set rest key bucket
  end.

Definition buildSpatialHash (boids : list Boid) (cellSize : num) : Grid :=
  foldl (λ grid boid,
    let cellX := floor (div (x (pos boid)) cellSize) in
    let cellY := floor (div (y (pos boid)) cellSize) in
    let key := key_of cellX cellY in
    let grid := if grid_has grid key then grid else grid_set grid key [] in
    match grid_get grid key with
    | Some bucket => grid_set grid key (bucket ++ [boid])
    | None => grid
    end) [] boids.

Definition getCellCount (grid : Grid) : nat := length grid.

Definition getAllBoids (grid : Grid) : list Boid :=
  foldl (λ boids cellBoids, boids ++ cellBoids) [] (snd <$> grid).

Definition to_gmap (grid : Grid) : SpatialGrid := list_to_map grid.

End OrderedGrid.

(* ================================================================= *)
(** ** Specification side: what a step computes, cell by cell *)

Module Spec.

Local Open Scope Z_scope.

(** First or last row, first or last column. *)
Definition is_boundary (cols rows x y : Z) : bool :=
  (x =? 0) || (x =? cols - 1) || (y =? 0) || (y =? rows - 1).

(** Sum of the 8-connected neighbours of the cell at flat index [idx]. *)
Definition neighbour_sum (f : list num) (cols idx : Z) : num :=
  add (add (add (add (add (add (add
    (index f (idx - 1)) (index f (idx + 1)))
    (index f (idx - cols))) (index f (idx + cols)))
    (index f (idx - 1 - cols))) (index f (idx + 1 - cols)))
    (index f (idx - 1 + cols))) (index f (idx + 1 + cols)).

(** [(center×(1 − d) + (neighbourSum / 8)×d) × e]. *)
Definition stencil (f : list num) (cols : Z) (d e : num) (idx : Z) : num :=
  mul (add (mul (index f idx) (sub (Fin 1) d))
           (mul (div (neighbour_sum f cols idx) (Fin 8)) d)) e.

(** The value the specification gives the cell [(x, y)] after a step. *)
Definition step_cell (f : list num) (cols rows : Z) (d e : num) (x y : Z) : num :=
  if is_boundary cols rows x y then mul (index f (x + y * cols)) e
  else stencil f cols d e (x + y * cols).

(** The finite value of a number; [0] where there is none. *)
Definition qval (a : num) : Q :=
  match a with Fin q => q | _ => 0%Q end.

(** The rational in cell [i] of a field of finite values; [0] outside the
    field. *)
Definition cellQ (qs : list Q) (i : Z) : Q := qval (index (Fin <$> qs) i).

(** [neighbour_sum] and [step_cell] on a field of finite values with finite
    rates, in rational arithmetic. *)
Definition neighbour_sumQ (qs : list Q) (cols idx : Z) : Q :=
  (cellQ qs (idx - 1) + cellQ qs (idx + 1) +
   cellQ qs (idx - cols) + cellQ qs (idx + cols) +
   cellQ qs (idx - 1 - cols) + cellQ qs (idx + 1 - cols) +
   cellQ qs (idx - 1 + cols) + cellQ qs (idx + 1 + cols))%Q.

Definition step_cellQ (qs : list Q) (cols rows : Z) (d e : Q) (x y : Z) : Q :=
  if is_boundary cols rows x y then (cellQ qs (x + y * cols) * e)%Q
  else ((cellQ qs (x + y * cols) * (1 - d) +
         neighbour_sumQ qs cols (x + y * cols) / 8 * d) * e)%Q.

(** [H lo + H (lo+1) + ... + H (lo+n-1)]. *)
Fixpoint zsum (n : nat) (lo : Z) (H : Z → Q) : Q :=
  match n with
  | O => 0%Q
  | S n' => (zsum n' lo H + H (lo + Z.of_nat n')%Z)%Q
  end.

(** Sum of the cells of [qs] with index below [b]. *)
Definition prefix_sum (qs : list Q) (b : Z) : Q :=
  zsum (Z.to_nat (Z.min b (Z.of_nat (length qs)))) 0 (cellQ qs).

(** Sum of a list of rationals, in the order of the summing loop. *)
Definition Qsum (qs : list Q) : Q := foldl Qplus 0%Q qs.

(** Cell coordinate of a finite position: [floor(p / s)]. *)
Definition cell_coord (p s : Q) : Z := Qfloor (p / s).

(** The offsets of the block of cells a query visits, in the order of its
    two loops. *)
Definition block_offsets : list (Z * Z) :=
  [(-1, -1); (-1, 0); (-1, 1); (0, -1); (0, 0); (0, 1); (1, -1); (1, 0); (1, 1)]%Z.

(** [e] to the power [n]. *)
Fixpoint Qpow (e : Q) (n : nat) : Q :=
  match n with
  | O => 1%Q
  | S n' => (Qpow e n' * e)%Q
  end.

(** The string holds no comma. *)
Fixpoint comma_free (s : string) : bool :=
  match s with
  | EmptyString => true
  | String c s' => negb (Ascii.eqb c ","%char) && comma_free s'
  end.

End Spec.

(* ================================================================= *)
(** ** Program logic: total-correctness triples *)

Definition hoare {A} (P : heap → Prop) (m : M A) (Q : A → heap → Prop) : Prop :=
  ∀ h, P h → ∃ a h', m h = Some (a, h') ∧ Q a h'.

(** The heap while a step fills its output array [next]: every other array
    is as in the heap [h0] the step started from, and the cells of [next]
    whose coordinates are in [S] hold the value the specification gives. *)
Definition filling (h0 : heap) (next : loc) (f : list num) (cols rows : Z)
    (d e : num) (S : Z → Z → Prop) (h : heap) : Prop :=
  (∀ l, l ≠ next → h !! l = h0 !! l) ∧
  ∃ g, h !! next = Some g ∧ length g = length f ∧
    ∀ x y, (0 ≤ x < cols)%Z → (0 ≤ y < rows)%Z → S x y →
      index g (x + y * cols)%Z = Spec.step_cell f cols rows d e x y.

(** A list of deposits at one cell, in order (a caller of
    [depositPheromone]). *)
Fixpoint deposit_all (field : loc) (cols rows x y : Z)
    (amounts : list num) (maxLevel : num) : M unit :=
  match amounts with
  | [] => mret tt
  | a :: rest =>
      Pheromone.depositPheromone field cols rows x y a maxLevel;;
      deposit_all field cols rows x y rest maxLevel
  end.

(** [n] evaporation steps in a row, each on the result of the one before. *)
Fixpoint evaporate_times (n : nat) (field : loc) (evaporationRate : num)
    : M loc :=
  match n with
  | O => mret field
  | S n' =>
      next ← Pheromone.evaporatePheromones field evaporationRate;
      evaporate_times n' next evaporationRate
  end.

(* ================================================================= *)
(** ** Example inputs *)

(** A 3×3 field with mass in the centre cell only, alone in a heap. *)
Definition field_3x3 : list Q := [0; 0; 0; 0; 5; 0; 0; 0; 0]%Q.
Definition heap_3x3 : heap := {[ 1%positive := Fin <$> field_3x3 ]}.

(** A 3×3 field with a value in every cell. *)
Definition field_full_3x3 : list Q := [1; 2; 3; 4; 5; 6; 7; 8; 9]%Q.
Definition heap_full_3x3 : heap := {[ 1%positive := Fin <$> field_full_3x3 ]}.

(** The field [createPheromoneField(3, 3)] makes. *)
Definition empty_3x3 : list Q := [0; 0; 0; 0; 0; 0; 0; 0; 0]%Q.
Definition heap_empty_3x3 : heap := {[ 1%positive := Fin <$> empty_3x3 ]}.

(** The boid the tests of the spatial hash create at a position. *)
Definition boid_at (px py : Q) : SpatialHash.Boid :=
  {| SpatialHash.pos := {| SpatialHash.x := Fin px; SpatialHash.y := Fin py |};
     SpatialHash.vel := {| SpatialHash.x := Fin 0; SpatialHash.y := Fin 0 |};
     SpatialHash.acc := {| SpatialHash.x := Fin 0; SpatialHash.y := Fin 0 |};
     SpatialHash.maxSpeed := Fin 4;
     SpatialHash.maxForce := Fin (15 # 100) |}.

Definition three_boids : list SpatialHash.Boid :=
  [boid_at 50 50; boid_at 100 100; boid_at 200 200].

(** A 3×3 field with the same value in every cell. *)
Definition heap_uniform_3x3 : heap :=
  {[ 1%positive := Fin <$> replicate 9 7%Q ]}.

Import Pheromone Spec.

(* ================================================================= *)
(** * Proofs *)

Section hoare_rules.
Context {A B : Type}.
Implicit Types (P : heap → Prop).

Lemma hoare_ret P (a : A) (Q : A → heap → Prop) :
  (∀ h, P h → Q a h) → hoare P (mret a) Q.
Proof. intros HPQ h HP. exists a, h. split; [done|]. by apply HPQ. Qed.

Lemma hoare_bind P (m : M A) (k : A → M B) (R : A → heap → Prop)
    (Q : B → heap → Prop) :
  hoare P m R → (∀ a, hoare (R a) (k a) Q) → hoare P (m ≫= k) Q.
Proof.
  intros Hm Hk h HP.
  destruct (Hm h HP) as (a & h1 & Hrun & HR).
  destruct (Hk a h1 HR) as (b & h2 & Hrun2 & HQ).
  exists b, h2. split; [|done].
  unfold mbind, M_bind. by rewrite Hrun.
Qed.

Lemma hoare_assume P (φ : Prop) (m : M A) (Q : A → heap → Prop) :
  (φ → hoare P m Q) → hoare (λ h, φ ∧ P h) m Q.
Proof. intros Hm h [Hφ HP]. by apply Hm. Qed.

Lemma hoare_conseq (P P' : heap → Prop) (m : M A) (Q Q' : A → heap → Prop) :
  (∀ h, P' h → P h) → (∀ a h, Q a h → Q' a h) →
  hoare P m Q → hoare P' m Q'.
Proof.
  intros HP HQ Hm h Hh.
  destruct (Hm h (HP h Hh)) as (a & h1 & Hrun & Ha).
  exists a, h1. eauto.
Qed.
End hoare_rules.

Section loops.
Local Open Scope Z_scope.
Context {A : Type}.

Lemma hoare_for_iter (I : Z → A → heap → Prop) (body : Z → A → M A) n :
  ∀ lo acc,
  (∀ i a, lo ≤ i < lo + Z.of_nat n → hoare (I i a) (body i a) (I (i + 1))) →
  hoare (I lo acc) (for_iter n lo acc body) (I (lo + Z.of_nat n)).
Proof.
  induction n as [|n IH]; intros lo acc Hbody.
  - simpl. apply hoare_ret. intros h Hh.
    by replace (lo + Z.of_nat 0) with lo by lia.
  - simpl for_iter. eapply hoare_bind.
    + apply Hbody. lia.
    + intros a.
      replace (lo + Z.of_nat (S n)) with ((lo + 1) + Z.of_nat n) by lia.
      apply IH. intros i a' Hi. apply Hbody. lia.
Qed.

(** The loop rule: an invariant indexed by the loop variable.  A loop with
    [hi ≤ lo] does not run and ends at [lo]. *)
Lemma hoare_for_range (I : Z → A → heap → Prop) (body : Z → A → M A) lo hi acc :
  (∀ i a, lo ≤ i < hi → hoare (I i a) (body i a) (I (i + 1))) →
  hoare (I lo acc) (for_range lo hi acc body) (I (Z.max lo hi)).
Proof.
  intros Hbody. unfold for_range.
  replace (Z.max lo hi) with (lo + Z.of_nat (Z.to_nat (hi - lo))) by lia.
  apply hoare_for_iter. intros i a Hi. apply Hbody. lia.
Qed.

(** A loop whose body keeps [P] keeps [P], whatever its bounds. *)
Lemma hoare_for_keeps (P : heap → Prop) (body : Z → A → M A) lo hi acc :
  (∀ i a, hoare P (body i a) (λ _, P)) →
  hoare P (for_range lo hi acc body) (λ _, P).
Proof.
  intros Hbody. unfold for_range.
  generalize (Z.to_nat (hi - lo)) as n. intros n. revert lo acc.
  induction n as [|n IH]; intros lo acc; simpl.
  - by apply hoare_ret.
  - eapply hoare_bind; [apply Hbody|]. intros a. apply IH.
Qed.
End loops.

Section cells.
Local Open Scope Z_scope.
Implicit Types (v : list num) (i j : Z).

Lemma index_store_eq v i a :
  0 ≤ i < Z.of_nat (length v) → index (store v i a) i = a.
Proof.
  intros Hi. unfold index, store.
  destruct (Z.leb_spec 0 i); [|lia].
  rewrite list_lookup_insert_eq; [done|lia].
Qed.

Lemma index_store_ne v i j a : i ≠ j → index (store v i a) j = index v j.
Proof.
  intros Hne. unfold index, store.
  destruct (Z.leb_spec 0 j); [|done].
  destruct (Z.leb_spec 0 i); [|done].
  rewrite list_lookup_insert_ne; [done|lia].
Qed.

Lemma length_store v i a : length (store v i a) = length v.
Proof. unfold store. case_match; [apply length_insert|done]. Qed.

Lemma index_of_nat v (n : nat) : index v (Z.of_nat n) = default NaN (v !! n).
Proof.
  unfold index. destruct (Z.leb_spec 0 (Z.of_nat n)); [|lia].
  by rewrite Nat2Z.id.
Qed.

Lemma index_fin (qs : list Q) i :
  0 ≤ i < Z.of_nat (length qs) →
  index (Fin <$> qs) i = Fin (qval (index (Fin <$> qs) i)).
Proof.
  intros Hi. unfold index. destruct (Z.leb_spec 0 i); [|lia].
  destruct (lookup_lt_is_Some_2 qs (Z.to_nat i)) as [q Hq]; [lia|].
  by rewrite list_lookup_fmap, Hq.
Qed.

(** Row-major indexing is injective on the grid. *)
Lemma flat_index_inj cols x y x' y' :
  0 ≤ x < cols → 0 ≤ x' < cols → x + y * cols = x' + y' * cols →
  x = x' ∧ y = y'.
Proof.
  intros Hx Hx' Heq.
  assert (y = y') as -> by nia. lia.
Qed.

Lemma flat_index_range cols rows x y :
  0 ≤ x < cols → 0 ≤ y < rows → 0 ≤ x + y * cols < cols * rows.
Proof. intros Hx Hy. nia. Qed.
End cells.

Section spec_cells.
Local Open Scope Z_scope.

Lemma is_boundary_true cols rows x y :
  is_boundary cols rows x y = true ↔
  x = 0 ∨ x = cols - 1 ∨ y = 0 ∨ y = rows - 1.
Proof. unfold is_boundary. rewrite !orb_true_iff, !Z.eqb_eq. tauto. Qed.

Lemma is_boundary_false cols rows x y :
  is_boundary cols rows x y = false ↔
  x ≠ 0 ∧ x ≠ cols - 1 ∧ y ≠ 0 ∧ y ≠ rows - 1.
Proof. unfold is_boundary. rewrite !orb_false_iff, !Z.eqb_neq. tauto. Qed.

Lemma step_cell_boundary f cols rows d e i x y :
  i = x + y * cols →
  x = 0 ∨ x = cols - 1 ∨ y = 0 ∨ y = rows - 1 →
  mul (index f i) e = step_cell f cols rows d e x y.
Proof.
  intros -> Hb. unfold step_cell.
  by rewrite (proj2 (is_boundary_true cols rows x y) Hb).
Qed.

Lemma step_cell_interior f cols rows d e x y :
  1 ≤ x < cols - 1 → 1 ≤ y < rows - 1 →
  stencil f cols d e (x + y * cols) = step_cell f cols rows d e x y.
Proof.
  intros Hx Hy. unfold step_cell.
  rewrite (proj2 (is_boundary_false cols rows x y)); [done|lia].
Qed.
End spec_cells.

Section diffusion.
Local Open Scope Z_scope.
Variables (h0 : heap) (field next : loc) (f : list num).
Variables (cols rows : Z) (d e : num).
Hypothesis Hfield : h0 !! field = Some f.
Hypothesis Hnext : h0 !! next = None.

Local Abbreviation fill := (filling h0 next f cols rows d e).

Lemma filling_field S h : fill S h → h !! field = Some f.
Proof.
  intros [Hframe _]. rewrite Hframe; [done|]. intros ->. congruence.
Qed.

Lemma filling_mono (S S' : Z → Z → Prop) h :
  (∀ x y, 0 ≤ x < cols → 0 ≤ y < rows → S' x y → S x y) →
  fill S h → fill S' h.
Proof.
  intros HS [Hframe (g & Hg & Hlen & Hcells)].
  split; [done|]. exists g. repeat split; auto.
Qed.

Lemma filling_start :
  fill (λ _ _, False) (<[next := replicate (length f) (Fin 0)]> h0).
Proof.
  split.
  - intros l Hl. by rewrite lookup_insert_ne.
  - eexists. rewrite lookup_insert_eq, length_replicate.
    repeat split. intros ? ? _ _ [].
Qed.

Lemma exec_get {B} S i (k : num → M B) Q :
  hoare (fill S) (k (index f i)) Q →
  hoare (fill S) (arrayGet field i ≫= k) Q.
Proof.
  intros Hk h Hh. destruct (Hk h Hh) as (b & h' & Hrun & HQ).
  exists b, h'. split; [|done].
  unfold mbind, M_bind, arrayGet. rewrite (filling_field S h Hh). simpl.
  exact Hrun.
Qed.

Lemma exec_set_any i v :
  hoare (fill (λ _ _, False)) (arraySet next i v)
        (λ _, fill (λ _ _, False)).
Proof.
  intros h [Hframe (g & Hg & Hlen & _)].
  exists tt, (<[next := store g i v]> h). split.
  { unfold arraySet. by rewrite Hg. }
  split.
  - intros l Hl. rewrite lookup_insert_ne by done. by apply Hframe.
  - exists (store g i v). rewrite lookup_insert_eq, length_store.
    repeat split; [done|]. intros ? ? _ _ [].
Qed.

Hypothesis Hsize : Z.of_nat (length f) = cols * rows.

Lemma exec_set S i x y v :
  0 ≤ x < cols → 0 ≤ y < rows → i = x + y * cols →
  v = step_cell f cols rows d e x y →
  hoare (fill S) (arraySet next i v)
        (λ _, fill (λ x' y', S x' y' ∨ (x' = x ∧ y' = y))).
Proof.
  intros Hx Hy -> -> h [Hframe (g & Hg & Hlen & Hcells)].
  exists tt, (<[next := store g (x + y * cols) (step_cell f cols rows d e x y)]> h).
  split.
  { unfold arraySet. by rewrite Hg. }
  split.
  - intros l Hl. rewrite lookup_insert_ne by done. by apply Hframe.
  - eexists. rewrite lookup_insert_eq, length_store.
    repeat split; [done|]. intros x' y' Hx' Hy' HS.
    destruct (decide (x' + y' * cols = x + y * cols)) as [Heq|Hne].
    + apply flat_index_inj in Heq as [-> ->]; [|done..].
      apply index_store_eq.
      pose proof (flat_index_range cols rows x y Hx Hy). lia.
    + rewrite index_store_ne by done.
      destruct HS as [HS|[-> ->]]; [by apply Hcells|done].
Qed.

(** [exec_set] followed by a weakening to the cells wanted next. *)
Lemma exec_set_to S S' i x y v :
  0 ≤ x < cols → 0 ≤ y < rows → i = x + y * cols →
  v = step_cell f cols rows d e x y →
  (∀ x' y', 0 ≤ x' < cols → 0 ≤ y' < rows →
     S' x' y' → S x' y' ∨ (x' = x ∧ y' = y)) →
  hoare (fill S) (arraySet next i v) (λ _, fill S').
Proof.
  intros Hx Hy Hi Hv HS.
  eapply hoare_conseq; [| |by apply (exec_set S i x y v)]; [done|].
  intros [] h. by apply filling_mono.
Qed.

Hypothesis Hfresh : next = fresh (dom h0).

Lemma diffuse_alloc {B} (k : nat → loc → M B) Q :
  hoare (fill (λ _ _, False)) (k (length f) next) Q →
  hoare (λ h, h = h0)
    (len ← arrayLength field; l ← newFloat32Array len; k len l) Q.
Proof.
  intros Hk.
  eapply hoare_bind with (R := λ len h, len = length f ∧ h = h0).
  { intros h ->. exists (length f), h0. unfold arrayLength.
    by rewrite Hfield. }
  intros len. apply hoare_assume. intros ->.
  eapply hoare_bind with (R := λ l h, l = next ∧ fill (λ _ _, False) h).
  { intros h ->. eexists _, _. split; [reflexivity|].
    rewrite <- Hfresh. split; [done|]. apply filling_start. }
  intros l. apply hoare_assume. by intros ->.
Qed.

(** Whatever the dimensions, a step runs to its end and touches [next]
    only. *)
Lemma diffuse_runs :
  hoare (λ h, h = h0) (diffusePheromones field cols rows d e)
        (λ r h, r = next ∧ fill (λ _ _, False) h).
Proof.
  unfold diffusePheromones. apply diffuse_alloc.
  eapply hoare_bind.
  { apply hoare_for_keeps. intros x [].
    apply exec_get. eapply hoare_bind; [apply exec_set_any|].
    intros []. apply exec_get. apply exec_set_any. }
  intros []. eapply hoare_bind.
  { apply hoare_for_keeps. intros y [].
    apply exec_get. eapply hoare_bind; [apply exec_set_any|].
    intros []. apply exec_get. apply exec_set_any. }
  intros []. eapply hoare_bind.
  { apply hoare_for_keeps. intros x [].
    apply hoare_for_keeps. intros y []. cbv zeta.
    do 9 apply exec_get. apply exec_set_any. }
  intros []. by apply hoare_ret.
Qed.

Hypothesis Hcols : 1 ≤ cols.
Hypothesis Hrows : 1 ≤ rows.

(** On a well-formed grid the three loops of a step give every cell the
    value of the specification: each write puts the specified value in
    its cell, and the loops between them reach every cell. *)
Lemma diffuse_fills :
  hoare (λ h, h = h0) (diffusePheromones field cols rows d e)
        (λ r h, r = next ∧ fill (λ _ _, True) h).
Proof.
  unfold diffusePheromones. apply diffuse_alloc.
  (* first and last row *)
  eapply hoare_bind with
    (R := λ _, fill (λ x' y', y' = 0 ∨ y' = rows - 1)).
  { eapply hoare_conseq; [| |
      apply hoare_for_range with
        (I := λ x (_ : unit), fill (λ x' y', x' < x ∧ (y' = 0 ∨ y' = rows - 1)))].
    - intros h. apply filling_mono. lia.
    - intros [] h. apply filling_mono. lia.
    - intros x _ Hx. apply exec_get.
      eapply hoare_bind.
      { apply exec_set with (x := x) (y := 0); [lia..|].
        apply step_cell_boundary; lia. }
      intros []. apply exec_get.
      apply exec_set_to with (x := x) (y := rows - 1); [lia..| |].
      { apply step_cell_boundary; lia. }
      intros x' y' ? ? ?. lia. }
  intros [].
  (* first and last column *)
  eapply hoare_bind with
    (R := λ _, fill (λ x' y', x' = 0 ∨ x' = cols - 1 ∨ y' = 0 ∨ y' = rows - 1)).
  { eapply hoare_conseq; [| |
      apply hoare_for_range with
        (I := λ y (_ : unit), fill (λ x' y',
           (y' = 0 ∨ y' = rows - 1) ∨ (y' < y ∧ (x' = 0 ∨ x' = cols - 1))))].
    - intros h. apply filling_mono. lia.
    - intros [] h. apply filling_mono. lia.
    - intros y _ Hy. apply exec_get.
      eapply hoare_bind.
      { apply exec_set with (x := 0) (y := y); [lia..|].
        apply step_cell_boundary; lia. }
      intros []. apply exec_get.
      apply exec_set_to with (x := cols - 1) (y := y); [lia..| |].
      { apply step_cell_boundary; lia. }
      intros x' y' ? ? ?. lia. }
  intros [].
  (* interior *)
  eapply hoare_bind with (R := λ _, fill (λ _ _, True)).
  { eapply hoare_conseq; [| |
      apply hoare_for_range with
        (I := λ x (_ : unit), fill (λ x' y',
           (x' = 0 ∨ x' = cols - 1 ∨ y' = 0 ∨ y' = rows - 1) ∨ x' < x))].
    - intros h. apply filling_mono. lia.
    - intros [] h. apply filling_mono. lia.
    - intros x _ Hx.
      eapply hoare_conseq; [| |
        apply hoare_for_range with
          (I := λ y (_ : unit), fill (λ x' y',
             (x' = 0 ∨ x' = cols - 1 ∨ y' = 0 ∨ y' = rows - 1) ∨
             x' < x ∨ (x' = x ∧ y' < y)))].
      + intros h. apply filling_mono. lia.
      + intros [] h. apply filling_mono. lia.
      + intros y _ Hy. cbv zeta.
        do 9 apply exec_get.
        apply exec_set_to with (x := x) (y := y); [lia..| |].
        { by rewrite <- step_cell_interior by lia. }
        intros x' y' ? ? ?. lia. }
  intros []. apply hoare_ret. done.
Qed.
End diffusion.

Section steps.
Local Open Scope Z_scope.
Implicit Types (h : heap) (f g : list num).

Lemma fresh_unallocated h : h !! fresh (dom h) = None.
Proof. apply not_elem_of_dom, is_fresh. Qed.

Lemma filling_heap h0 next f cols rows d e S h :
  filling h0 next f cols rows d e S h →
  ∃ g, h = <[next := g]> h0 ∧ length g = length f ∧
    ∀ x y, 0 ≤ x < cols → 0 ≤ y < rows → S x y →
      index g (x + y * cols) = step_cell f cols rows d e x y.
Proof.
  intros [Hframe (g & Hg & Hlen & Hcells)]. exists g.
  split; [|done]. apply map_eq. intros l.
  destruct (decide (l = next)) as [->|Hne].
  - by rewrite lookup_insert_eq.
  - rewrite lookup_insert_ne by done. by apply Hframe.
Qed.

(** A step on a well-formed grid: it returns a fresh array holding, cell
    by cell, what the specification says. *)
Lemma diffuse_spec h field f cols rows d e :
  h !! field = Some f → Z.of_nat (length f) = cols * rows →
  1 ≤ cols → 1 ≤ rows →
  ∃ g, diffusePheromones field cols rows d e h
         = Some (fresh (dom h), <[fresh (dom h) := g]> h) ∧
       length g = length f ∧
       ∀ x y, 0 ≤ x < cols → 0 ≤ y < rows →
         index g (x + y * cols) = step_cell f cols rows d e x y.
Proof.
  intros Hf Hsize Hcols Hrows.
  destruct (diffuse_fills h field (fresh (dom h)) f cols rows d e Hf
    (fresh_unallocated h) Hsize eq_refl Hcols Hrows h eq_refl)
    as (r & h' & Hrun & -> & Hfill).
  apply filling_heap in Hfill as (g & -> & Hlen & Hcells).
  exists g. repeat split; [done..|]. intros x y Hx Hy. by apply Hcells.
Qed.

(** A step on any array, whatever the dimensions passed. *)
Lemma diffuse_total h field f cols rows d e :
  h !! field = Some f →
  ∃ g, diffusePheromones field cols rows d e h
         = Some (fresh (dom h), <[fresh (dom h) := g]> h) ∧
       length g = length f.
Proof.
  intros Hf.
  destruct (diffuse_runs h field (fresh (dom h)) f cols rows d e Hf
    (fresh_unallocated h) eq_refl h eq_refl)
    as (r & h' & Hrun & -> & Hfill).
  apply filling_heap in Hfill as (g & -> & Hlen & _).
  by exists g.
Qed.

Lemma evaporate_spec h field f e :
  h !! field = Some f →
  ∃ g, evaporatePheromones field e h
         = Some (fresh (dom h), <[fresh (dom h) := g]> h) ∧
       length g = length f ∧
       ∀ i, 0 ≤ i < Z.of_nat (length f) → index g i = mul (index f i) e.
Proof.
  intros Hf.
  set (next := fresh (dom h)). set (n := Z.of_nat (length f)).
  assert (hoare (λ h', h' = h) (evaporatePheromones field e)
    (λ r h', r = next ∧
       filling h next f n 1 (Fin 0) e (λ _ _, True) h')) as Hrun.
  { unfold evaporatePheromones.
    apply (diffuse_alloc h field next f n 1 (Fin 0) e Hf eq_refl).
    eapply hoare_bind with
      (R := λ _, filling h next f n 1 (Fin 0) e (λ _ _, True)).
    - eapply hoare_conseq; [| |
        apply hoare_for_range with
          (I := λ i (_ : unit),
             filling h next f n 1 (Fin 0) e (λ x' _, x' < i))].
      + intros h'. apply filling_mono. lia.
      + intros [] h'. apply filling_mono. lia.
      + intros i [] Hi. apply (exec_get h field next f n 1 (Fin 0) e Hf
          (fresh_unallocated h)).
        apply (exec_set_to h next f n 1 (Fin 0) e) with (x := i) (y := 0);
          [unfold n; lia|lia|lia|lia| |].
        { apply step_cell_boundary; lia. }
        intros x' y' ? ? ?. lia.
    - intros []. by apply hoare_ret. }
  destruct (Hrun h eq_refl) as (r & h' & Hrun' & -> & Hfill).
  apply filling_heap in Hfill as (g & -> & Hlen & Hcells).
  exists g. repeat split; [done..|]. intros i Hi.
  specialize (Hcells i 0 Hi ltac:(lia) I).
  rewrite <- (step_cell_boundary f n 1 (Fin 0) e (i + 0 * n) i 0) in Hcells
    by lia.
  by replace (i + 0 * n) with i in Hcells by lia.
Qed.
End steps.

Section deposits.
Local Open Scope Z_scope.
Implicit Types (h : heap) (f : list num).

(** The bounds check of [depositPheromone] and [getPheromoneAt]. *)
Lemma guard_true cols rows x y :
  (x <? 0) || (x >=? cols) || (y <? 0) || (y >=? rows) = true ↔
  x < 0 ∨ cols ≤ x ∨ y < 0 ∨ rows ≤ y.
Proof. rewrite !orb_true_iff, !Z.ltb_lt, !Z.geb_le. lia. Qed.

Lemma guard_false cols rows x y :
  (x <? 0) || (x >=? cols) || (y <? 0) || (y >=? rows) = false ↔
  0 ≤ x < cols ∧ 0 ≤ y < rows.
Proof. rewrite <- not_true_iff_false, guard_true. lia. Qed.

Lemma deposit_out h field cols rows x y amount m :
  x < 0 ∨ cols ≤ x ∨ y < 0 ∨ rows ≤ y →
  depositPheromone field cols rows x y amount m h = Some (false, h).
Proof.
  intros Hout. unfold depositPheromone.
  by rewrite (proj2 (guard_true cols rows x y) Hout).
Qed.

Lemma deposit_in h field f cols rows x y amount m :
  h !! field = Some f → 0 ≤ x < cols → 0 ≤ y < rows →
  depositPheromone field cols rows x y amount m h
  = Some (true, <[field :=
      store f (x + y * cols) (min (add (index f (x + y * cols)) amount) m)]> h).
Proof.
  intros Hf Hx Hy. unfold depositPheromone.
  rewrite (proj2 (guard_false cols rows x y)) by done.
  cbv zeta. unfold mbind, M_bind, arrayGet, arraySet.
  by rewrite Hf; simpl; rewrite Hf.
Qed.

Lemma read_out h field cols rows x y :
  x < 0 ∨ cols ≤ x ∨ y < 0 ∨ rows ≤ y →
  getPheromoneAt field cols rows x y h = Some (Fin 0, h).
Proof.
  intros Hout. unfold getPheromoneAt.
  by rewrite (proj2 (guard_true cols rows x y) Hout).
Qed.

Lemma read_in h field f cols rows x y :
  h !! field = Some f → 0 ≤ x < cols → 0 ≤ y < rows →
  getPheromoneAt field cols rows x y h = Some (index f (x + y * cols), h).
Proof.
  intros Hf Hx Hy. unfold getPheromoneAt.
  rewrite (proj2 (guard_false cols rows x y)) by done.
  unfold arrayGet. by rewrite Hf.
Qed.

Lemma store_fin (qs : list Q) i (q : Q) :
  0 ≤ i → store (Fin <$> qs) i (Fin q) = Fin <$> <[Z.to_nat i := q]> qs.
Proof.
  intros Hi. unfold store. destruct (Z.leb_spec 0 i); [|lia].
  by rewrite list_fmap_insert.
Qed.
End deposits.

Section rationals.
Local Open Scope Q_scope.

Lemma foldl_Qplus_from (t : Q) (l : list Q) :
  foldl Qplus t l == t + Qsum l.
Proof.
  unfold Qsum. revert t. induction l as [|a l IH]; intros t; simpl.
  - lra.
  - rewrite (IH (t + a)), (IH (0 + a)). lra.
Qed.

Lemma Qsum_cons (a : Q) (l : list Q) : Qsum (a :: l) == a + Qsum l.
Proof. unfold Qsum at 1. simpl. rewrite foldl_Qplus_from. lra. Qed.

Lemma Qsum_nonneg (l : list Q) : Forall (λ a, 0 <= a) l → 0 <= Qsum l.
Proof.
  induction 1 as [|a l Ha _ IH].
  - unfold Qsum. simpl. lra.
  - rewrite Qsum_cons. lra.
Qed.

(** Clamping after each deposit is clamping once at the end. *)
Lemma Qmin_clamp_step (c a s m : Q) :
  0 <= s → Qmin (Qmin (c + a) m + s) m == Qmin (c + (a + s)) m.
Proof.
  intros Hs.
  destruct (Q.min_spec (c + a) m) as [[H1 E1]|[H1 E1]];
  destruct (Q.min_spec (Qmin (c + a) m + s) m) as [[H2 E2]|[H2 E2]];
  destruct (Q.min_spec (c + (a + s)) m) as [[H3 E3]|[H3 E3]];
  rewrite E2, E3; rewrite E1 in *; lra.
Qed.
End rationals.

Section deposit_sequences.
Local Open Scope Z_scope.
Variables (field : loc) (cols rows x y : Z) (m : Q).
Hypothesis Hx : 0 ≤ x < cols.
Hypothesis Hy : 0 ≤ y < rows.

Lemma deposit_fin h (qs : list Q) (c a : Q) :
  h !! field = Some (Fin <$> qs) →
  Z.of_nat (length qs) = cols * rows →
  qs !! Z.to_nat (x + y * cols) = Some c →
  depositPheromone field cols rows x y (Fin a) (Fin m) h
  = Some (true, <[field :=
      Fin <$> <[Z.to_nat (x + y * cols) := Qmin (c + a) m]> qs]> h).
Proof.
  intros Hf Hsize Hc.
  rewrite (deposit_in h field _ cols rows x y _ _ Hf Hx Hy).
  pose proof (flat_index_range cols rows x y Hx Hy) as Hi.
  do 3 f_equal. unfold index. destruct (Z.leb_spec 0 (x + y * cols)); [|lia].
  rewrite list_lookup_fmap, Hc. simpl. apply store_fin. lia.
Qed.

Lemma deposit_all_fin (amounts : list Q) :
  ∀ h (qs : list Q) (c : Q),
  h !! field = Some (Fin <$> qs) →
  Z.of_nat (length qs) = cols * rows →
  qs !! Z.to_nat (x + y * cols) = Some c →
  (c <= m)%Q →
  Forall (λ a, 0 <= a)%Q amounts →
  ∃ v, deposit_all field cols rows x y (Fin <$> amounts) (Fin m) h
       = Some (tt, <[field := Fin <$> <[Z.to_nat (x + y * cols) := v]> qs]> h)
     ∧ (v == Qmin (c + Qsum amounts) m)%Q.
Proof.
  induction amounts as [|a amounts IH]; intros h qs c Hf Hsize Hc Hcm Hpos.
  - exists c. split.
    + simpl. rewrite list_insert_id by done. by rewrite insert_id.
    + unfold Qsum. simpl. rewrite Q.min_l; lra.
  - apply Forall_cons in Hpos as [Ha Hpos].
    simpl deposit_all. unfold mbind at 1, M_bind at 1.
    rewrite (deposit_fin h qs c a Hf Hsize Hc).
    set (i := Z.to_nat (x + y * cols)) in *.
    assert (i < length qs)%nat as Hi by (by eapply lookup_lt_Some).
    destruct (IH (<[field := Fin <$> <[i := Qmin (c + a) m]> qs]> h)
                (<[i := Qmin (c + a) m]> qs) (Qmin (c + a) m))
      as (v & Hrun & Hv).
    { by rewrite lookup_insert_eq. }
    { by rewrite length_insert. }
    { by rewrite list_lookup_insert_eq. }
    { apply Q.le_min_r. }
    { done. }
    exists v. split.
    + etrans; [exact Hrun|]. by rewrite insert_insert_eq, list_insert_insert_eq.
    + rewrite Hv, Qsum_cons. apply Qmin_clamp_step. by apply Qsum_nonneg.
Qed.
End deposit_sequences.

Section finite_fields.
Local Open Scope Z_scope.
Implicit Types (qs gs : list Q) (g : list num).

Lemma cellQ_of_nat qs (n : nat) : cellQ qs (Z.of_nat n) = default 0%Q (qs !! n).
Proof.
  unfold cellQ. rewrite index_of_nat, list_lookup_fmap.
  by destruct (qs !! n).
Qed.

Lemma cellQ_outside qs i :
  i < 0 ∨ Z.of_nat (length qs) ≤ i → cellQ qs i = 0%Q.
Proof.
  intros Hi. unfold cellQ, index. destruct (Z.leb_spec 0 i); [|done].
  rewrite list_lookup_fmap, lookup_ge_None_2; [done|lia].
Qed.

Lemma index_cellQ qs i :
  0 ≤ i < Z.of_nat (length qs) → index (Fin <$> qs) i = Fin (cellQ qs i).
Proof. apply index_fin. Qed.

Lemma cellQ_nonneg qs i : Forall (λ q, 0 <= q)%Q qs → (0 <= cellQ qs i)%Q.
Proof.
  intros Hqs.
  destruct (decide (0 ≤ i < Z.of_nat (length qs))) as [Hi|Hi].
  - replace i with (Z.of_nat (Z.to_nat i)) by lia. rewrite cellQ_of_nat.
    destruct (lookup_lt_is_Some_2 qs (Z.to_nat i)) as [q Hq]; [lia|].
    rewrite Hq. simpl. by eapply (Forall_lookup_1 _ _ _ _ Hqs).
  - rewrite cellQ_outside by lia. lra.
Qed.

(** An array all of whose cells are finite is a list of rationals. *)
Lemma all_cells_fin g :
  (∀ i, 0 ≤ i < Z.of_nat (length g) → ∃ q, index g i = Fin q) →
  g = Fin <$> (qval <$> g).
Proof.
  intros Hg. apply list_eq. intros n.
  rewrite !list_lookup_fmap.
  destruct (g !! n) as [a|] eqn:Ha; [|done]. simpl. f_equal.
  destruct (Hg (Z.of_nat n)) as [q Hq].
  { apply lookup_lt_Some in Ha. lia. }
  rewrite index_of_nat, Ha in Hq. simpl in Hq. by subst a.
Qed.

Lemma flat_index_split cols rows j :
  0 ≤ j < cols * rows → 0 < cols →
  ∃ x y, 0 ≤ x < cols ∧ 0 ≤ y < rows ∧ j = x + y * cols.
Proof.
  intros Hj Hcols. exists (j mod cols), (j / cols).
  pose proof (Z.mod_pos_bound j cols Hcols).
  pose proof (Z.div_mod j cols ltac:(lia)).
  assert (0 ≤ j / cols) by (apply Z.div_pos; lia).
  assert (j / cols < rows) by (apply Z.div_lt_upper_bound; lia).
  lia.
Qed.

Lemma step_cell_fin qs cols rows (d e : Q) x y :
  Z.of_nat (length qs) = cols * rows →
  0 ≤ x < cols → 0 ≤ y < rows →
  step_cell (Fin <$> qs) cols rows (Fin d) (Fin e) x y
  = Fin (step_cellQ qs cols rows d e x y).
Proof.
  intros Hsize Hx Hy. unfold step_cell, step_cellQ.
  pose proof (flat_index_range cols rows x y Hx Hy) as Hi.
  destruct (is_boundary cols rows x y) eqn:Hb.
  - by rewrite index_cellQ by lia.
  - apply is_boundary_false in Hb.
    unfold stencil, neighbour_sum, neighbour_sumQ.
    rewrite !index_cellQ by nia. reflexivity.
Qed.

Lemma Qdiv_8 (a : Q) : (a / 8 == a * (1 # 8))%Q.
Proof. field. Qed.

Lemma step_cellQ_nonneg qs cols rows (d e : Q) x y :
  Forall (λ q, 0 <= q)%Q qs → (0 <= d <= 1)%Q → (0 <= e <= 1)%Q →
  (0 <= step_cellQ qs cols rows d e x y)%Q.
Proof.
  intros Hqs Hd He. unfold step_cellQ, neighbour_sumQ.
  pose proof (cellQ_nonneg qs) as Hc.
  destruct (is_boundary cols rows x y).
  - apply Qmult_le_0_compat; [apply Hc; done|lra].
  - apply Qmult_le_0_compat; [|lra].
    generalize (x + y * cols). intros idx.
    pose proof (Hc (idx - 1) Hqs). pose proof (Hc (idx + 1) Hqs).
    pose proof (Hc (idx - cols) Hqs). pose proof (Hc (idx + cols) Hqs).
    pose proof (Hc (idx - 1 - cols) Hqs). pose proof (Hc (idx + 1 - cols) Hqs).
    pose proof (Hc (idx - 1 + cols) Hqs). pose proof (Hc (idx + 1 + cols) Hqs).
    pose proof (Hc idx Hqs).
    assert (0 <= cellQ qs idx * (1 - d))%Q
      by (apply Qmult_le_0_compat; lra).
    rewrite Qdiv_8.
    match goal with |- (0 <= _ + ?s * d)%Q =>
      assert (0 <= s * d)%Q by (apply Qmult_le_0_compat; lra)
    end.
    lra.
Qed.

(** A step on a field of finite values. *)
Lemma diffuse_fin (h : heap) field qs cols rows (d e : Q) :
  h !! field = Some (Fin <$> qs) → Z.of_nat (length qs) = cols * rows →
  1 ≤ cols → 1 ≤ rows →
  ∃ gs, diffusePheromones field cols rows (Fin d) (Fin e) h
          = Some (fresh (dom h), <[fresh (dom h) := Fin <$> gs]> h) ∧
        length gs = length qs ∧
        ∀ x y, 0 ≤ x < cols → 0 ≤ y < rows →
          cellQ gs (x + y * cols) = step_cellQ qs cols rows d e x y.
Proof.
  intros Hf Hsize Hcols Hrows.
  rewrite <- (length_fmap Fin) in Hsize.
  destruct (diffuse_spec h field _ cols rows (Fin d) (Fin e) Hf Hsize
    Hcols Hrows) as (g & Hrun & Hlen & Hcells).
  rewrite length_fmap in Hsize, Hlen.
  assert (∀ x y, 0 ≤ x < cols → 0 ≤ y < rows →
    index g (x + y * cols) = Fin (step_cellQ qs cols rows d e x y)) as Hfin.
  { intros x y Hx Hy. rewrite Hcells by done. by apply step_cell_fin. }
  assert (g = Fin <$> (qval <$> g)) as Hg.
  { apply all_cells_fin. intros i Hi.
    destruct (flat_index_split cols rows i) as (x & y & Hx & Hy & ->);
      [lia..|].
    rewrite Hfin by done. eauto. }
  exists (qval <$> g). rewrite <- Hg, length_fmap.
  repeat split; [done..|]. intros x y Hx Hy.
  unfold cellQ. rewrite <- Hg, Hfin by done. done.
Qed.

Lemma evaporate_fin (h : heap) field qs (e : Q) :
  h !! field = Some (Fin <$> qs) →
  evaporatePheromones field (Fin e) h
  = Some (fresh (dom h),
          <[fresh (dom h) := Fin <$> ((λ q, q * e)%Q <$> qs)]> h).
Proof.
  intros Hf.
  destruct (evaporate_spec h field _ (Fin e) Hf) as (g & Hrun & Hlen & Hcells).
  rewrite Hrun. do 3 f_equal. rewrite length_fmap in Hlen, Hcells.
  apply list_eq. intros n. rewrite !list_lookup_fmap.
  destruct (qs !! n) as [q|] eqn:Hq; simpl.
  - pose proof (lookup_lt_Some _ _ _ Hq) as Hn.
    destruct (lookup_lt_is_Some_2 g n) as [a Ha]; [lia|].
    rewrite Ha. f_equal.
    specialize (Hcells (Z.of_nat n) ltac:(lia)).
    rewrite !index_of_nat, Ha, list_lookup_fmap, Hq in Hcells. done.
  - apply lookup_ge_None_2. apply lookup_ge_None_1 in Hq. lia.
Qed.
End finite_fields.

Section sums.
Local Open Scope Z_scope.
Implicit Types (H : Z → Q) (n m : nat) (lo : Z).

Lemma zsum_ext n lo H H' :
  (∀ i, lo ≤ i < lo + Z.of_nat n → H i == H' i) →
  zsum n lo H == zsum n lo H'.
Proof.
  induction n as [|n IH]; intros Heq; simpl; [reflexivity|].
  rewrite IH, (Heq (lo + Z.of_nat n)); [reflexivity|lia|].
  intros i Hi. apply Heq. lia.
Qed.

Lemma zsum_le n lo H H' :
  (∀ i, lo ≤ i < lo + Z.of_nat n → (H i <= H' i)%Q) →
  (zsum n lo H <= zsum n lo H')%Q.
Proof.
  induction n as [|n IH]; intros Hle; simpl; [lra|].
  apply Qplus_le_compat; [|apply Hle; lia].
  apply IH. intros i Hi. apply Hle. lia.
Qed.

Lemma zsum_plus n lo H H' :
  zsum n lo (λ i, H i + H' i)%Q == (zsum n lo H + zsum n lo H')%Q.
Proof. induction n as [|n IH]; simpl; [lra|]. rewrite IH. lra. Qed.

Lemma zsum_scale n lo (c : Q) H :
  zsum n lo (λ i, c * H i)%Q == (c * zsum n lo H)%Q.
Proof. induction n as [|n IH]; simpl; [lra|]. rewrite IH. lra. Qed.

Lemma zsum_shift n lo k H :
  zsum n lo (λ i, H (i + k)) = zsum n (lo + k) H.
Proof.
  induction n as [|n IH]; simpl; [done|]. rewrite IH.
  do 2 f_equal. lia.
Qed.

Lemma zsum_nonneg n lo H :
  (∀ i, (0 <= H i)%Q) → (0 <= zsum n lo H)%Q.
Proof.
  intros Hpos. induction n as [|n IH]; simpl; [lra|].
  pose proof (Hpos (lo + Z.of_nat n)). lra.
Qed.

Lemma zsum_mono_length n m lo H :
  (∀ i, (0 <= H i)%Q) → (n ≤ m)%nat → (zsum n lo H <= zsum m lo H)%Q.
Proof.
  intros Hpos. induction 1 as [|m _ IH]; simpl; [lra|].
  pose proof (Hpos (lo + Z.of_nat m)). lra.
Qed.

(** The sum of a list, as a sum over its indices. *)
Lemma Qsum_zsum (qs : list Q) : Qsum qs == zsum (length qs) 0 (cellQ qs).
Proof.
  induction qs as [|a qs IH] using rev_ind; [reflexivity|].
  unfold Qsum. rewrite foldl_app, length_app, Nat.add_1_r. simpl.
  fold (Qsum qs). rewrite IH.
  apply Qplus_comp.
  - apply zsum_ext. intros i Hi.
    replace i with (Z.of_nat (Z.to_nat i)) by lia.
    rewrite !cellQ_of_nat, lookup_app_l by lia. reflexivity.
  - rewrite Z.add_0_l, cellQ_of_nat, (list_lookup_middle qs [] a) by done.
    reflexivity.
Qed.

Section windows.
Variable qs : list Q.
Hypothesis Hqs : Forall (λ q, 0 <= q)%Q qs.

Local Abbreviation prefix := (prefix_sum qs).

Lemma prefix_step b : prefix (b + 1) == (prefix b + cellQ qs b)%Q.
Proof using Type.
  unfold prefix_sum.
  destruct (decide (0 ≤ b < Z.of_nat (length qs))) as [Hb|Hb].
  - replace (Z.to_nat (Z.min (b + 1) (Z.of_nat (length qs))))
      with (S (Z.to_nat b)) by lia.
    replace (Z.to_nat (Z.min b (Z.of_nat (length qs))))
      with (Z.to_nat b) by lia.
    simpl. by replace (0 + Z.of_nat (Z.to_nat b)) with b by lia.
  - rewrite cellQ_outside by lia.
    replace (Z.to_nat (Z.min (b + 1) (Z.of_nat (length qs))))
      with (Z.to_nat (Z.min b (Z.of_nat (length qs)))) by lia.
    lra.
Qed.

Lemma window_prefix m a :
  zsum m a (cellQ qs) == (prefix (a + Z.of_nat m) - prefix a)%Q.
Proof using Type.
  induction m as [|m IH]; simpl.
  - replace (a + Z.of_nat 0) with a by lia. lra.
  - replace (a + Z.of_nat (S m)) with (a + Z.of_nat m + 1) by lia.
    rewrite prefix_step, IH. lra.
Qed.

(** Over non-negative cells, no window of indices sums to more than the
    whole field. *)
Lemma window_le_total m a :
  (zsum m a (cellQ qs) <= zsum (length qs) 0 (cellQ qs))%Q.
Proof using Hqs.
  rewrite window_prefix.
  assert (∀ b, 0 <= prefix b <= zsum (length qs) 0 (cellQ qs))%Q as Hb.
  { intros b. unfold prefix_sum. split.
    - apply zsum_nonneg. intros i. by apply cellQ_nonneg.
    - apply zsum_mono_length; [|lia]. intros i. by apply cellQ_nonneg. }
  pose proof (Hb a). pose proof (Hb (a + Z.of_nat m)). lra.
Qed.
End windows.
End sums.

Section totals.
Local Open Scope Z_scope.

Lemma total_iter (h : heap) field (qs : list Q) n :
  h !! field = Some (Fin <$> qs) →
  ∀ (k : nat) (t : Q), (k + n ≤ length qs)%nat →
  for_iter n (Z.of_nat k) (Fin t)
    (λ i total, a ← arrayGet field i; mret (add total a)) h
  = Some (Fin (foldl Qplus t (take n (drop k qs))), h).
Proof.
  intros Hf. induction n as [|n IH]; intros k t Hk; [done|].
  destruct (lookup_lt_is_Some_2 qs k) as [q Hq]; [lia|].
  rewrite (drop_S _ _ _ Hq). simpl.
  unfold mbind at 1, M_bind at 1. unfold mbind at 1, M_bind at 1, arrayGet.
  rewrite Hf. simpl.
  rewrite index_of_nat, list_lookup_fmap, Hq. simpl.
  replace (Z.of_nat k + 1) with (Z.of_nat (S k)) by lia.
  apply IH. lia.
Qed.

Lemma run_bind {A B} (m : M A) (k : A → M B) (h h' : heap) (a : A) :
  m h = Some (a, h') → (m ≫= k) h = k a h'.
Proof. intros Hm. unfold mbind, M_bind. by rewrite Hm. Qed.

Lemma total_fin (h : heap) field (qs : list Q) :
  h !! field = Some (Fin <$> qs) →
  getTotalPheromone field h = Some (Fin (Qsum qs), h).
Proof.
  intros Hf. unfold getTotalPheromone.
  rewrite (run_bind _ _ h h (length (Fin <$> qs)))
    by (unfold arrayLength; by rewrite Hf).
  unfold for_range. rewrite length_fmap, Z.sub_0_r, Nat2Z.id.
  etrans; [apply (total_iter h field qs (length qs) Hf 0%nat 0%Q); lia|].
  by rewrite drop_0, firstn_all.
Qed.

Lemma Qmult_le_nonneg_l (c a b : Q) :
  (0 <= c → a <= b → c * a <= c * b)%Q.
Proof.
  intros Hc Hab. rewrite (Qmult_comm c a), (Qmult_comm c b).
  by apply Qmult_le_compat_r.
Qed.

(** Pure diffusion moves mass between cells and loses some of it into the
    boundary: with a zero boundary the total cannot grow. *)
Lemma diffusion_total_le (qs gs : list Q) cols rows (d : Q) :
  Z.of_nat (length qs) = cols * rows → 1 ≤ cols → 1 ≤ rows →
  length gs = length qs →
  Forall (λ q, 0 <= q)%Q qs →
  (∀ x y, 0 ≤ x < cols → 0 ≤ y < rows → is_boundary cols rows x y = true →
     (cellQ qs (x + y * cols) == 0)%Q) →
  (0 <= d)%Q →
  (∀ x y, 0 ≤ x < cols → 0 ≤ y < rows →
     cellQ gs (x + y * cols) = step_cellQ qs cols rows d 1 x y) →
  (Qsum gs <= Qsum qs)%Q.
Proof.
  intros Hsize Hcols Hrows Hlen Hqs Hzero Hd Hcells.
  rewrite !Qsum_zsum, Hlen.
  set (F := cellQ qs). set (n := length qs). set (c := (d * (1 # 8))%Q).
  assert (∀ i, 0 <= F i)%Q as HF by (intros i; by apply cellQ_nonneg).
  assert (∀ i, 0 <= c * F i)%Q as HcF.
  { intros i. apply Qmult_le_0_compat; [unfold c; lra|apply HF]. }
  assert (∀ k, c * zsum n (0 + k) F <= c * zsum n 0 F)%Q as Hwin.
  { intros k. apply Qmult_le_nonneg_l; [unfold c; lra|].
    apply window_le_total; done. } 
  apply Qle_trans with (y := zsum n 0 (λ i,
    (1 - d) * F i +
    c * F (i + -1)%Z + c * F (i + 1)%Z +
    c * F (i + - cols)%Z + c * F (i + cols)%Z +
    c * F (i + (-1 - cols))%Z + c * F (i + (1 - cols))%Z +
    c * F (i + (-1 + cols))%Z + c * F (i + (1 + cols))%Z)%Q).
  - apply zsum_le. intros i Hi.
    destruct (flat_index_split cols rows i) as (x & y & Hx & Hy & ->);
      [lia..|].
    rewrite Hcells by done. unfold step_cellQ.
    destruct (is_boundary cols rows x y) eqn:Hb.
    + fold (F (x + y * cols)). rewrite (Hzero x y Hx Hy Hb : F _ == 0).
      generalize (x + y * cols). intros j.
      pose proof (HcF (j + -1)). pose proof (HcF (j + 1)).
      pose proof (HcF (j + - cols)). pose proof (HcF (j + cols)).
      pose proof (HcF (j + (-1 - cols))). pose proof (HcF (j + (1 - cols))).
      pose proof (HcF (j + (-1 + cols))). pose proof (HcF (j + (1 + cols))).
      lra.
    + unfold neighbour_sumQ. fold F. generalize (x + y * cols). intros j.
      replace (j - 1 - cols) with (j + (-1 - cols)) by lia.
      replace (j + 1 - cols) with (j + (1 - cols)) by lia.
      replace (j - 1 + cols) with (j + (-1 + cols)) by lia.
      replace (j + 1 + cols) with (j + (1 + cols)) by lia.
      replace (j - 1) with (j + -1) by lia.
      replace (j - cols) with (j + - cols) by lia.
      rewrite Qdiv_8. unfold c. lra.
  - rewrite !zsum_plus, !zsum_scale.
    rewrite !(zsum_shift n 0 _ F).
    pose proof (Hwin (-1)). pose proof (Hwin 1).
    pose proof (Hwin (- cols)). pose proof (Hwin cols).
    pose proof (Hwin (-1 - cols)). pose proof (Hwin (1 - cols)).
    pose proof (Hwin (-1 + cols)). pose proof (Hwin (1 + cols)).
    unfold c in *. lra.
Qed.
End totals.

Import SpatialHash.

Section keys.
Implicit Types (s t : string).

Lemma comma_free_app s t :
  comma_free (s +:+ t) = comma_free s && comma_free t.
Proof.
  induction s as [|c s IH]; simpl; [done|]. by rewrite IH, andb_assoc.
Qed.

Lemma comma_free_pretty_N_go (x : N) s :
  comma_free s = true → comma_free (pretty_N_go x s) = true.
Proof.
  revert s. induction (N.lt_wf_0 x) as [x _ IH]; intros s Hs.
  assert (x = 0 ∨ 0 < x)%N as [->|Hx] by lia.
  - by rewrite pretty_N_go_0.
  - rewrite pretty_N_go_step by done. apply IH.
    { by apply N.div_lt. }
    simpl. rewrite Hs, andb_true_r.
    unfold pretty_N_char. by repeat case_match.
Qed.

Lemma comma_free_pretty_N (x : N) : comma_free (pretty x) = true.
Proof.
  unfold pretty, pretty_N. case_decide; [done|].
  by apply comma_free_pretty_N_go.
Qed.

Lemma comma_free_pretty_Z (z : Z) : comma_free (pretty z) = true.
Proof.
  destruct z as [|p|p]; unfold pretty, pretty_Z; [done|..].
  - apply comma_free_pretty_N.
  - rewrite comma_free_app. simpl. apply comma_free_pretty_N.
Qed.

Lemma comma_free_toString (a : num) : comma_free (toString a) = true.
Proof. destruct a; [apply comma_free_pretty_Z|done..]. Qed.

(** Two comma-free strings, each followed by a comma and more, are
    recovered from the concatenation. *)
Lemma comma_split s s' t t' :
  comma_free s = true → comma_free s' = true →
  s +:+ "," +:+ t = s' +:+ "," +:+ t' → s = s' ∧ t = t'.
Proof.
  revert s'. induction s as [|c s IH]; intros [|c' s'] Hs Hs' Heq;
    simpl in *.
  - by injection Heq.
  - injection Heq as <- _. by rewrite Ascii.eqb_refl in Hs'.
  - injection Heq as -> _. by rewrite Ascii.eqb_refl in Hs.
  - injection Heq as -> Heq.
    apply andb_true_iff in Hs as [_ Hs]. apply andb_true_iff in Hs' as [_ Hs'].
    destruct (IH s' Hs Hs' Heq) as [-> ->]. done.
Qed.

Lemma key_of_inj (a b a' b' : num) :
  key_of a b = key_of a' b' →
  toString a = toString a' ∧ toString b = toString b'.
Proof.
  unfold key_of. apply comma_split; apply comma_free_toString.
Qed.

Lemma toString_of_Z (z : Z) : toString (of_Z z) = pretty z.
Proof. unfold toString, of_Z. by rewrite Qfloor_Z. Qed.

Lemma key_of_Z_inj (a b a' b' : Z) :
  key_of (of_Z a) (of_Z b) = key_of (of_Z a') (of_Z b') ↔
  a = a' ∧ b = b'.
Proof.
  split; [|by intros [-> ->]].
  intros [Ha Hb]%key_of_inj. rewrite !toString_of_Z in Ha, Hb.
  split; by apply (inj pretty).
Qed.

Lemma add_of_Z (a b : Z) : toString (add (of_Z a) (of_Z b)) = pretty (a + b)%Z.
Proof.
  unfold toString, add, of_Z. f_equal.
  rewrite <- inject_Z_plus. apply Qfloor_Z.
Qed.

Lemma floor_div_fin (a s : Q) :
  ¬ (s == 0)%Q → floor (div (Fin a) (Fin s)) = of_Z (cell_coord a s).
Proof.
  intros Hs. unfold div.
  destruct (s ?= 0)%Q eqn:Hcmp; [|done..].
  by apply Qeq_alt in Hcmp.
Qed.
End keys.

Section grids.
Local Open Scope Z_scope.
Implicit Types (grid : gmap string (list Boid)) (b : Boid).

Lemma foldl_invariant {A B} (P : A → list B → Prop) (f : A → B → A) a0 :
  P a0 [] → (∀ a l (z : B), P a l → P (f a z) (l ++ [z])) →
  ∀ l, P (foldl f a0 l) l.
Proof.
  intros H0 Hstep l. induction l as [|z l IH] using rev_ind; [done|].
  rewrite foldl_app. simpl. by apply Hstep.
Qed.

Lemma has_spec grid key : has grid key = true ↔ is_Some (grid !! key).
Proof. unfold has. apply bool_decide_eq_true. Qed.

(** After a build, a boid is in a bucket exactly when it is one of the
    boids given and the bucket is the one of its cell key. *)
Lemma build_buckets (boids : list Boid) (s : num) key b :
  (∃ bucket, buildSpatialHash boids s !! key = Some bucket ∧ b ∈ bucket) ↔
  b ∈ boids ∧ getCellKey (pos b) s = key.
Proof.
  revert key b. unfold buildSpatialHash.
  apply (foldl_invariant (λ grid seen, ∀ key b,
    (∃ bucket, grid !! key = Some bucket ∧ b ∈ bucket) ↔
    b ∈ seen ∧ getCellKey (pos b) s = key)).
  - intros key b. split.
    + intros (bucket & Hb & _). by rewrite lookup_empty in Hb.
    + intros [Hb _]. by apply elem_of_nil in Hb.
  - intros grid seen b' IH key b. cbv zeta.
    fold (getCellKey (pos b') s). set (k := getCellKey (pos b') s).
    set (grid1 := if has grid k then grid else <[k := []]> grid).
    assert (∃ bucket, grid1 !! k = Some bucket ∧
              ∀ c, c ∈ bucket ↔ c ∈ seen ∧ getCellKey (pos c) s = k)
      as (bucket & Hk & Hbucket).
    { unfold grid1. destruct (has grid k) eqn:Hhas.
      - apply has_spec in Hhas as [bucket Hbucket]. exists bucket.
        split; [done|]. intros c. rewrite <- IH. split.
        + intros Hc. by exists bucket.
        + intros (bucket' & Hb' & Hc). congruence.
      - exists []. rewrite lookup_insert_eq. split; [done|].
        intros c. rewrite <- IH. split.
        + by intros ?%elem_of_nil.
        + intros (bucket' & Hb' & _).
          apply not_true_iff_false in Hhas. destruct Hhas.
          apply has_spec. by exists bucket'. }
    assert (∀ key', key' ≠ k → grid1 !! key' = grid !! key') as Hother.
    { intros key' Hne. unfold grid1. destruct (has grid k); [done|].
      by rewrite lookup_insert_ne. }
    rewrite Hk. rewrite elem_of_app, list_elem_of_singleton.
    destruct (decide (key = k)) as [->|Hne].
    + rewrite lookup_insert_eq. split.
      * intros (bucket' & [= <-] & Hb).
        apply elem_of_app in Hb as [Hb|Hb].
        -- apply Hbucket in Hb as [??]. auto.
        -- apply list_elem_of_singleton in Hb as ->. auto.
      * intros [[Hb| ->] Hkey].
        -- eexists. split; [done|]. apply elem_of_app. left.
           by apply Hbucket.
        -- eexists. split; [done|]. apply elem_of_app. right.
           by apply list_elem_of_singleton.
    + rewrite lookup_insert_ne, Hother, IH by done. split.
      * intros [??]. auto.
      * intros [[Hb| ->] Hkey]; [done|]. by destruct Hne.
Qed.

Lemma elem_of_fold_iter {A} (b : A) (P : Z → Prop)
    (body : Z → list A → list A) n :
  (∀ i l, b ∈ body i l ↔ b ∈ l ∨ P i) →
  ∀ lo l, b ∈ fold_iter n lo l body ↔
          b ∈ l ∨ ∃ i, lo ≤ i < lo + Z.of_nat n ∧ P i.
Proof.
  intros Hbody. induction n as [|n IH]; intros lo l; simpl fold_iter.
  - split; [auto|]. intros [?|(i & ? & _)]; [done|lia].
  - rewrite IH, Hbody. split.
    + intros [[?|?]|(i & ? & ?)]; [auto|right; exists lo|right; exists i];
        split; auto; lia.
    + intros [?|(i & Hi & ?)]; [auto|].
      destruct (decide (i = lo)) as [->|]; [auto|].
      right. exists i. split; [lia|done].
Qed.

Lemma elem_of_fold_range {A} (b : A) (P : Z → Prop)
    (body : Z → list A → list A) lo hi l :
  lo ≤ hi →
  (∀ i l, b ∈ body i l ↔ b ∈ l ∨ P i) →
  b ∈ fold_range lo hi l body ↔ b ∈ l ∨ ∃ i, lo ≤ i < hi ∧ P i.
Proof.
  intros Hle Hbody. unfold fold_range.
  rewrite (elem_of_fold_iter b P body _ Hbody).
  replace (lo + Z.of_nat (Z.to_nat (hi - lo))) with hi by lia. done.
Qed.

(** The candidates of a query are the contents of the buckets of the 3×3
    block of cells around the cell of the queried boid. *)
Lemma elem_of_getNeighbors b (q : Boid) grid (s : num) :
  b ∈ getNeighbors q grid s ↔
  ∃ dx dy bucket, -1 ≤ dx ≤ 1 ∧ -1 ≤ dy ≤ 1 ∧
    grid !! key_of (add (floor (div (x (pos q)) s)) (of_Z dx))
                   (add (floor (div (y (pos q)) s)) (of_Z dy))
      = Some bucket ∧ b ∈ bucket.
Proof.
  unfold getNeighbors. cbv zeta.
  rewrite (elem_of_fold_range b (λ dx, ∃ dy bucket, -1 ≤ dy ≤ 1 ∧
    grid !! key_of (add (floor (div (x (pos q)) s)) (of_Z dx))
                   (add (floor (div (y (pos q)) s)) (of_Z dy))
      = Some bucket ∧ b ∈ bucket)); [|lia|].
  - split.
    + intros [?%elem_of_nil|(dx & Hdx & dy & bucket & Hdy & Hb)]; [done|].
      exists dx, dy, bucket. split; [lia|done].
    + intros (dx & dy & bucket & Hdx & Hdy & Hb). right.
      exists dx. split; [lia|]. by exists dy, bucket.
  - intros dx l.
    rewrite (elem_of_fold_range b (λ dy, ∃ bucket,
      grid !! key_of (add (floor (div (x (pos q)) s)) (of_Z dx))
                     (add (floor (div (y (pos q)) s)) (of_Z dy))
        = Some bucket ∧ b ∈ bucket)); [|lia|].
    + split.
      * intros [?|(dy & Hdy & bucket & Hb)]; [auto|].
        right. exists dy, bucket. split; [lia|done].
      * intros [?|(dy & bucket & Hdy & Hb)]; [auto|].
        right. exists dy. split; [lia|]. by exists bucket.
    + intros dy l'.
      destruct (has grid _) eqn:Hhas.
      * apply has_spec in Hhas as [bucket Hbucket].
        rewrite Hbucket. simpl. rewrite elem_of_app. split.
        -- intros [?|?]; [auto|]. right. by exists bucket.
        -- intros [?|(bucket' & [= <-] & ?)]; auto.
      * split; [auto|]. intros [?|(bucket & Hbucket & _)]; [done|].
        apply not_true_iff_false in Hhas. destruct Hhas.
        apply has_spec. by exists bucket.
Qed.
End grids.

Section more_cells.
Local Open Scope Z_scope.
Implicit Types (g : list num) (qs gs : list Q).

(** Two arrays of one length that read alike are the same array. *)
Lemma list_eq_index g g' :
  length g = length g' →
  (∀ i, 0 ≤ i < Z.of_nat (length g) → index g i = index g' i) →
  g = g'.
Proof.
  intros Hlen Hidx. apply list_eq. intros n.
  destruct (decide (n < length g)%nat) as [Hn|Hn].
  - destruct (lookup_lt_is_Some_2 g n Hn) as [a Ha].
    destruct (lookup_lt_is_Some_2 g' n ltac:(lia)) as [a' Ha'].
    specialize (Hidx (Z.of_nat n) ltac:(lia)).
    rewrite !index_of_nat, Ha, Ha' in Hidx. simpl in Hidx. congruence.
  - rewrite !lookup_ge_None_2; [done|lia..].
Qed.

Lemma cellQ_lookup qs (n : nat) q : qs !! n = Some q → cellQ qs (Z.of_nat n) = q.
Proof. intros Hq. by rewrite cellQ_of_nat, Hq. Qed.

(** A property of every cell of a grid, read through the coordinates. *)
Lemma Forall_cells (P : Q → Prop) gs cols rows :
  Z.of_nat (length gs) = cols * rows → 1 ≤ cols →
  (∀ x y, 0 ≤ x < cols → 0 ≤ y < rows → P (cellQ gs (x + y * cols))) →
  Forall P gs.
Proof.
  intros Hsize Hcols Hcells. apply Forall_lookup. intros n q Hq.
  pose proof (lookup_lt_Some _ _ _ Hq) as Hn.
  destruct (flat_index_split cols rows (Z.of_nat n))
    as (x & y & Hx & Hy & Hxy); [lia..|].
  rewrite <- (cellQ_lookup gs n q Hq), Hxy. by apply Hcells.
Qed.

Lemma cellQ_bounds qs (m : Q) i :
  Forall (λ q, 0 <= q <= m)%Q qs → (0 <= m)%Q → (0 <= cellQ qs i <= m)%Q.
Proof.
  intros Hqs Hm.
  destruct (decide (0 ≤ i < Z.of_nat (length qs))) as [Hi|Hi].
  - replace i with (Z.of_nat (Z.to_nat i)) by lia. rewrite cellQ_of_nat.
    destruct (lookup_lt_is_Some_2 qs (Z.to_nat i)) as [q Hq]; [lia|].
    rewrite Hq. simpl. by eapply (Forall_lookup_1 _ _ _ _ Hqs).
  - rewrite cellQ_outside by lia. lra.
Qed.

Lemma cellQ_replicate (n : nat) (c : Q) i :
  0 ≤ i < Z.of_nat n → cellQ (replicate n c) i = c.
Proof.
  intros Hi. replace i with (Z.of_nat (Z.to_nat i)) by lia.
  rewrite cellQ_of_nat, lookup_replicate_2; [done|lia].
Qed.

Lemma Qsum_scale qs (e : Q) : (Qsum ((λ q, q * e) <$> qs) == Qsum qs * e)%Q.
Proof.
  induction qs as [|q qs IH]; [reflexivity|].
  rewrite fmap_cons, !Qsum_cons, IH. ring.
Qed.

Lemma Qsum_replicate_0 (n : nat) : (Qsum (replicate n 0) == 0)%Q.
Proof.
  induction n as [|n IH]; [reflexivity|].
  simpl replicate. rewrite Qsum_cons, IH. reflexivity.
Qed.
End more_cells.

Section floors.
Local Open Scope Z_scope.

(** [Qfloor q] is the one integer [c] with [c ≤ q < c + 1]. *)
Lemma Qfloor_unique (q : Q) (c : Z) :
  (inject_Z c <= q)%Q → (q < inject_Z (c + 1))%Q → Qfloor q = c.
Proof.
  intros Hle Hlt.
  pose proof (Qfloor_le q) as Hfl. pose proof (Qlt_floor q) as Hfu.
  assert (inject_Z c < inject_Z (Qfloor q + 1))%Q as H1 by lra.
  assert (inject_Z (Qfloor q) < inject_Z (c + 1))%Q as H2 by lra.
  rewrite <- Zlt_Qlt in H1, H2. lia.
Qed.

(** The cell of [a] is the one [c] with [c·s ≤ a < (c+1)·s]. *)
Lemma cell_coord_bounds (a s : Q) (c : Z) :
  (0 < s)%Q →
  cell_coord a s = c ↔ (inject_Z c * s <= a ∧ a < (inject_Z c + 1) * s)%Q.
Proof.
  intros Hs. unfold cell_coord.
  assert (a == a / s * s)%Q as Ha by (field; lra).
  split.
  - intros <-.
    pose proof (Qfloor_le (a / s)) as Hfl. pose proof (Qlt_floor (a / s)) as Hfu.
    rewrite inject_Z_plus in Hfu. change (inject_Z 1) with 1%Q in Hfu.
    set (z := inject_Z (Qfloor (a / s))) in *. set (q := (a / s)%Q) in *.
    clearbody z q. split; nra.
  - intros [Hle Hlt]. apply Qfloor_unique.
    + apply Qle_shift_div_l; [done|]. lra.
    + rewrite inject_Z_plus. change (inject_Z 1) with 1%Q.
      apply Qlt_shift_div_r; [done|]. lra.
Qed.
End floors.

Section buckets.
Local Open Scope Z_scope.
Implicit Types (grid : gmap string (list Boid)) (b : Boid) (boids : list Boid).

(** What a build puts under a key: the boids of that cell, in the order of
    the list; no entry where there is none. *)
Lemma build_lookup boids (s : num) key :
  buildSpatialHash boids s !! key
  = match filter (λ b, getCellKey (pos b) s = key) boids with
    | [] => None
    | bucket => Some bucket
    end.
Proof.
  revert key. unfold buildSpatialHash.
  apply (foldl_invariant (λ grid seen, ∀ key,
    grid !! key = match filter (λ b, getCellKey (pos b) s = key) seen with
                  | [] => None
                  | bucket => Some bucket
                  end)).
  - intros key. by rewrite lookup_empty.
  - intros grid seen b' IH key. cbv zeta.
    fold (getCellKey (pos b') s). set (k := getCellKey (pos b') s).
    set (grid1 := if has grid k then grid else <[k := []]> grid).
    assert (grid1 !! k = Some (filter (λ b, getCellKey (pos b) s = k) seen))
      as Hk.
    { unfold grid1. destruct (has grid k) eqn:Hhas.
      - apply has_spec in Hhas as [bucket Hbucket].
        rewrite Hbucket. rewrite IH in Hbucket.
        by destruct (filter _ seen).
      - rewrite lookup_insert_eq.
        apply not_true_iff_false in Hhas. rewrite has_spec in Hhas.
        rewrite IH in Hhas. destruct (filter _ seen); [done|].
        destruct Hhas. by eexists. }
    rewrite Hk, filter_app.
    destruct (decide (key = k)) as [->|Hne].
    + rewrite lookup_insert_eq, filter_singleton_True by done.
      by destruct (filter _ seen).
    + rewrite lookup_insert_ne by done.
      rewrite filter_singleton_False, app_nil_r by (unfold k in Hne; congruence).
      rewrite <- IH. unfold grid1. destruct (has grid k); [done|].
      by rewrite lookup_insert_ne.
Qed.

Lemma build_dom boids (s : num) :
  dom (buildSpatialHash boids s)
  = list_to_set ((λ b, getCellKey (pos b) s) <$> boids).
Proof.
  apply set_eq. intros key.
  rewrite elem_of_dom, build_lookup, elem_of_list_to_set, list_elem_of_fmap.
  split.
  - intros [bucket Hbucket].
    destruct (filter _ boids) as [|b l] eqn:Hfilter; [done|].
    assert (b ∈ filter (λ b, getCellKey (pos b) s = key) boids) as Hb
      by (rewrite Hfilter; left).
    apply list_elem_of_filter in Hb as [Hkey Hb]. by exists b.
  - intros (b & -> & Hb).
    assert (b ∈ filter (λ b', getCellKey (pos b') s = getCellKey (pos b) s) boids)
      as Hin by (by apply list_elem_of_filter).
    destruct (filter _ boids); [by apply elem_of_nil in Hin|by eexists].
Qed.

Lemma size_list_to_set_dups (l : list string) :
  size (list_to_set l : gset string) = length (remove_dups l).
Proof.
  rewrite <- (size_list_to_set (C := gset string) (remove_dups l))
    by apply NoDup_remove_dups.
  f_equal. apply set_eq. intros x.
  by rewrite !elem_of_list_to_set, elem_of_remove_dups.
Qed.

Lemma length_remove_dups_le (l : list string) :
  (length (remove_dups l) ≤ length l)%nat.
Proof.
  induction l as [|x l IH]; simpl; [done|]. case_decide; simpl; lia.
Qed.
End buckets.

Section ordered.
Import OrderedGrid.
Implicit Types (grid : list (string * list Boid)) (b : Boid)
  (bucket : list Boid) (key : string).

Lemma to_gmap_get grid key : grid_get grid key = to_gmap grid !! key.
Proof.
  unfold to_gmap. induction grid as [|[k v] grid IH]; simpl; [done|].
  case_decide as Hk.
  - subst. by rewrite lookup_insert_eq.
  - by rewrite lookup_insert_ne.
Qed.

Lemma to_gmap_set grid key bucket :
  to_gmap (grid_set grid key bucket) = <[key := bucket]> (to_gmap grid).
Proof.
  unfold to_gmap. induction grid as [|[k v] grid IH]; simpl; [done|].
  case_decide as Hk; simpl.
  - subst. by rewrite insert_insert_eq.
  - rewrite IH. by apply insert_insert_ne.
Qed.

Lemma to_gmap_has grid key : grid_has grid key = has (to_gmap grid) key.
Proof. unfold grid_has, has. by rewrite to_gmap_get. Qed.

(** The ordered build and the unordered one make the same buckets. *)
Lemma to_gmap_build (boids : list Boid) (s : num) :
  to_gmap (OrderedGrid.buildSpatialHash boids s)
  = SpatialHash.buildSpatialHash boids s.
Proof.
  unfold OrderedGrid.buildSpatialHash, SpatialHash.buildSpatialHash.
  match goal with
  | |- to_gmap (foldl ?f _ _) = foldl ?g _ _ =>
      set (stepO := f); set (stepG := g)
  end.
  assert (∀ grid b, to_gmap (stepO grid b) = stepG (to_gmap grid) b) as Hstep.
  { intros grid b. unfold stepO, stepG. cbv zeta. rewrite to_gmap_has.
    destruct (has (to_gmap grid) _) eqn:Hhas.
    - rewrite to_gmap_get. destruct (to_gmap grid !! _); [|done].
      by rewrite to_gmap_set.
    - rewrite to_gmap_get, to_gmap_set, !lookup_insert_eq.
      by rewrite !to_gmap_set. }
  cut (∀ grid, to_gmap (foldl stepO grid boids)
               = foldl stepG (to_gmap grid) boids).
  { intros Hall. apply (Hall []). }
  induction boids as [|b boids IH]; intros grid; [done|].
  simpl. by rewrite IH, Hstep.
Qed.

Lemma getAllBoids_concat grid : getAllBoids grid = mjoin (snd <$> grid).
Proof.
  unfold getAllBoids.
  assert (∀ (ls : list (list Boid)) acc,
    foldl (λ boids cellBoids, boids ++ cellBoids) acc ls = acc ++ mjoin ls)
    as Hfold.
  { induction ls as [|l ls IH]; intros acc; simpl.
    - by rewrite app_nil_r.
    - by rewrite IH, app_assoc. }
  apply (Hfold _ []).
Qed.

Lemma grid_set_new grid key bucket :
  grid_get grid key = None → grid_set grid key bucket = grid ++ [(key, bucket)].
Proof.
  induction grid as [|[k v] grid IH]; simpl; [done|].
  case_decide; [done|]. intros Hget. by rewrite IH.
Qed.

Lemma grid_set_push grid key bucket b :
  grid_get grid key = Some bucket →
  mjoin (snd <$> grid_set grid key (bucket ++ [b]))
  ≡ₚ b :: mjoin (snd <$> grid).
Proof.
  induction grid as [|[k v] grid IH]; simpl; [done|].
  case_decide.
  - intros [= ->]. simpl. rewrite <- app_assoc. simpl.
    symmetry. apply Permutation_middle.
  - intros Hget. simpl. rewrite (IH Hget).
    symmetry. apply Permutation_middle.
Qed.

Lemma grid_get_set_eq grid key bucket :
  grid_get (grid_set grid key bucket) key = Some bucket.
Proof. by rewrite to_gmap_get, to_gmap_set, lookup_insert_eq. Qed.

Lemma elem_of_grid_set_keys grid key bucket k :
  k ∈ (grid_set grid key bucket).*1 ↔ k = key ∨ k ∈ grid.*1.
Proof.
  induction grid as [|[k' v] grid IH]; simpl.
  - rewrite list_elem_of_singleton, elem_of_nil. tauto.
  - case_decide as Hk; simpl; rewrite !elem_of_cons.
    + subst. tauto.
    + rewrite IH. tauto.
Qed.

Lemma NoDup_grid_set_keys grid key bucket :
  NoDup grid.*1 → NoDup (grid_set grid key bucket).*1.
Proof.
  induction grid as [|[k v] grid IH]; simpl.
  - intros _. apply NoDup_singleton.
  - rewrite NoDup_cons. intros [Hk Hnodup].
    case_decide as Hkey; simpl; apply NoDup_cons; [done|].
    split; [|by apply IH].
    rewrite elem_of_grid_set_keys. intros [->|?]; done.
Qed.

(** The keys of a built grid are pairwise different. *)
Lemma NoDup_build_keys (boids : list Boid) (s : num) :
  NoDup (OrderedGrid.buildSpatialHash boids s).*1.
Proof.
  unfold OrderedGrid.buildSpatialHash.
  apply (foldl_invariant (λ grid (_ : list Boid), NoDup grid.*1)).
  - apply NoDup_nil_2.
  - intros grid _ b Hgrid. cbv zeta.
    set (k := key_of _ _).
    assert (NoDup (if grid_has grid k then grid else grid_set grid k []).*1)
      as Hgrid1.
    { destruct (grid_has grid k); [done|by apply NoDup_grid_set_keys]. }
    destruct (grid_get _ k); [by apply NoDup_grid_set_keys|done].
Qed.
End ordered.

Section candidates.
Local Open Scope Z_scope.
Implicit Types (grid : gmap string (list Boid)) (b q : Boid)
  (boids : list Boid).

Lemma push_bucket grid key (acc : list Boid) :
  (if has grid key then acc ++ default [] (grid !! key) else acc)
  = acc ++ default [] (grid !! key).
Proof.
  destruct (has grid key) eqn:Hhas; [done|].
  apply not_true_iff_false in Hhas. rewrite has_spec in Hhas.
  destruct (grid !! key); [destruct Hhas; by eexists|].
  by rewrite app_nil_r.
Qed.

(** The candidates are the nine buckets of the block, one after the other,
    in the order of the two loops. *)
Lemma getNeighbors_concat q grid (s : num) :
  getNeighbors q grid s
  = mjoin ((λ d, default [] (grid !!
               key_of (add (floor (div (x (pos q)) s)) (of_Z d.1))
                      (add (floor (div (y (pos q)) s)) (of_Z d.2))))
            <$> block_offsets).
Proof.
  unfold getNeighbors, fold_range. cbv zeta.
  change (Z.to_nat (2 - -1)) with 3%nat. cbn [fold_iter].
  rewrite !push_bucket.
  change (-1 + 1 + 1) with 1. change (-1 + 1) with 0.
  unfold block_offsets. cbn [fmap list_fmap mjoin list_join fst snd].
  by rewrite app_nil_r, <- !app_assoc.
Qed.

Lemma NoDup_concat_fmap {A B} (F : A → list B) (l : list A) :
  NoDup l → (∀ a, a ∈ l → NoDup (F a)) →
  (∀ a a' z, a ∈ l → a' ∈ l → z ∈ F a → z ∈ F a' → a = a') →
  NoDup (mjoin (F <$> l)).
Proof.
  induction 1 as [|a l Ha Hl IH]; intros HF Hdisj; simpl.
  - apply NoDup_nil_2.
  - apply NoDup_app. split; [apply HF; left|]. split.
    + intros z Hz Hin. apply list_elem_of_join in Hin as (k & Hzk & Hk).
      apply list_elem_of_fmap in Hk as (a' & -> & Ha').
      assert (a = a') as <- by (eapply Hdisj; [left|by right|done..]).
      done.
    + apply IH.
      * intros a' Ha'. apply HF. by right.
      * intros a1 a2 z H1 H2. apply Hdisj; by right.
Qed.

(** Whether a boid of the list is a candidate, and of which cell. *)
Lemma elem_of_getNeighbors_build boids (s : Q) b q (bx by_ qx qy : Q) :
  ¬ (s == 0)%Q → b ∈ boids →
  pos b = {| x := Fin bx; y := Fin by_ |} →
  pos q = {| x := Fin qx; y := Fin qy |} →
  b ∈ getNeighbors q (buildSpatialHash boids (Fin s)) (Fin s) ↔
  Z.abs (cell_coord bx s - cell_coord qx s) ≤ 1 ∧
  Z.abs (cell_coord by_ s - cell_coord qy s) ≤ 1.
Proof.
  intros Hs Hb Hpb Hpq.
  rewrite getNeighbors_concat, list_elem_of_join. split.
  - intros (bucket & Hin & Hbucket).
    apply list_elem_of_fmap in Hbucket as ([dx dy] & -> & Hd).
    rewrite build_lookup in Hin.
    destruct (filter _ boids) as [|c l] eqn:Hfilter; [by apply elem_of_nil in Hin|].
    simpl in Hin. rewrite <- Hfilter in Hin.
    apply list_elem_of_filter in Hin as [Hkey _].
    rewrite Hpb, Hpq in Hkey. unfold getCellKey in Hkey. cbn [x y fst snd] in Hkey.
    rewrite !floor_div_fin in Hkey by done.
    apply key_of_inj in Hkey as [Hx Hy].
    rewrite toString_of_Z, add_of_Z in Hx, Hy.
    apply (inj pretty) in Hx, Hy.
    unfold block_offsets in Hd.
    repeat (apply elem_of_cons in Hd as [[= -> ->]|Hd]; [lia|]).
    by apply elem_of_nil in Hd.
  - intros [Hdx Hdy].
    set (dx := cell_coord bx s - cell_coord qx s).
    set (dy := cell_coord by_ s - cell_coord qy s).
    eexists. split; [|apply list_elem_of_fmap; exists (dx, dy); split; [done|]].
    + rewrite build_lookup.
      assert (b ∈ filter (λ b0, getCellKey (pos b0) (Fin s) =
                key_of (add (floor (div (x (pos q)) (Fin s))) (of_Z (dx, dy).1))
                       (add (floor (div (y (pos q)) (Fin s))) (of_Z (dx, dy).2)))
                boids) as Hin.
      { apply list_elem_of_filter. split; [|done].
        rewrite Hpb, Hpq. unfold getCellKey, key_of. cbn [x y fst snd].
        rewrite !floor_div_fin by done.
        rewrite !toString_of_Z, !add_of_Z. unfold dx, dy.
        replace (cell_coord qx s + (cell_coord bx s - cell_coord qx s))
          with (cell_coord bx s) by lia.
        by replace (cell_coord qy s + (cell_coord by_ s - cell_coord qy s))
          with (cell_coord by_ s) by lia. }
      destruct (filter _ boids); [by apply elem_of_nil in Hin|done].
    + unfold block_offsets.
      assert ((dx = -1 ∨ dx = 0 ∨ dx = 1) ∧ (dy = -1 ∨ dy = 0 ∨ dy = 1))
        as [Hx Hy] by lia.
      destruct Hx as [-> | [-> | ->]]; destruct Hy as [-> | [-> | ->]];
        set_solver.
Qed.
End candidates.

(* ================================================================= *)
(** * The claims about the pheromone field *)

Section pheromone_claims.
Local Open Scope Z_scope.








(** C5. Outside [[0,cols) × [0,rows)] a deposit returns [false] and changes
    nothing, and a read returns [0]; inside, a deposit returns [true] and a
    read returns the stored cell; both always return. *)
Theorem out_of_bounds_handling (h : heap) field f cols rows x y amount m :
  h !! field = Some f →
  (x < 0 ∨ cols ≤ x ∨ y < 0 ∨ rows ≤ y →
     depositPheromone field cols rows x y amount m h = Some (false, h) ∧
     getPheromoneAt field cols rows x y h = Some (Fin 0, h)) ∧
  (0 ≤ x < cols ∧ 0 ≤ y < rows →
     (∃ h', depositPheromone field cols rows x y amount m h = Some (true, h')) ∧
     getPheromoneAt field cols rows x y h = Some (index f (x + y * cols), h) ∧
     (Z.of_nat (length f) = cols * rows →
        f !! Z.to_nat (x + y * cols) = Some (index f (x + y * cols)))).
Proof.
  intros Hf. split.
  - intros Hout. split; [by apply deposit_out|by apply read_out].
  - intros [Hx Hy]. split; [|split].
    + eexists. by apply deposit_in.
    + by apply read_in.
    + intros Hsize. pose proof (flat_index_range cols rows x y Hx Hy) as Hi.
      unfold index. destruct (Z.leb_spec 0 (x + y * cols)); [|lia].
      destruct (lookup_lt_is_Some_2 f (Z.to_nat (x + y * cols))) as [v Hv];
        [lia|].
      by rewrite Hv.
Qed.

Lemma out_of_bounds_handling_witness :
  (depositPheromone 1%positive 3 3 3 (-1) (Fin 7) (Fin 100) heap_3x3
     = Some (false, heap_3x3) ∧
   getPheromoneAt 1%positive 3 3 3 (-1) heap_3x3 = Some (Fin 0, heap_3x3)) ∧
  ((∃ h', depositPheromone 1%positive 3 3 1 1 (Fin 7) (Fin 100) heap_3x3
            = Some (true, h')) ∧
   getPheromoneAt 1%positive 3 3 1 1 heap_3x3 = Some (Fin 5, heap_3x3)).
Proof.
  split.
  - apply (proj1 (out_of_bounds_handling heap_3x3 1%positive
      (Fin <$> field_3x3) 3 3 3 (-1) (Fin 7) (Fin 100) eq_refl)). lia.
  - destruct (proj2 (out_of_bounds_handling heap_3x3 1%positive
      (Fin <$> field_3x3) 3 3 1 1 (Fin 7) (Fin 100) eq_refl))
      as (Hdep & Hread & _); [lia|].
    split; [exact Hdep|exact Hread].
Defined.





(** C9. Neither a diffusion step nor an evaporation step writes to its input:
    each runs to its end, returns an array that was not allocated before,
    and leaves the input array, and every other array that existed, as it
    was. *)
Theorem steps_leave_input_untouched (h : heap) field f cols rows d e :
  h !! field = Some f →
  (∃ next g h',
     diffusePheromones field cols rows d e h = Some (next, h') ∧
     h !! next = None ∧ h' !! next = Some g ∧
     h' !! field = Some f ∧ ∀ l, l ≠ next → h' !! l = h !! l) ∧
  (∃ next g h',
     evaporatePheromones field e h = Some (next, h') ∧
     h !! next = None ∧ h' !! next = Some g ∧
     h' !! field = Some f ∧ ∀ l, l ≠ next → h' !! l = h !! l).
Proof.
  intros Hf.
  pose proof (fresh_unallocated h) as Hnew.
  assert (field ≠ fresh (dom h)) as Hne by (intros ->; congruence).
  split.
  - destruct (diffuse_total h field f cols rows d e Hf) as (g & Hrun & _).
    exists (fresh (dom h)), g, (<[fresh (dom h) := g]> h).
    repeat split; [done..|by rewrite lookup_insert_eq| |].
    + by rewrite lookup_insert_ne.
    + intros l Hl. by rewrite lookup_insert_ne.
  - destruct (evaporate_spec h field f e Hf) as (g & Hrun & _).
    exists (fresh (dom h)), g, (<[fresh (dom h) := g]> h).
    repeat split; [done..|by rewrite lookup_insert_eq| |].
    + by rewrite lookup_insert_ne.
    + intros l Hl. by rewrite lookup_insert_ne.
Qed.

Lemma steps_leave_input_untouched_witness :
  (∃ next g h',
     diffusePheromones 1%positive 3 3 (Fin (1 # 4)) (Fin (1 # 2)) heap_full_3x3
       = Some (next, h') ∧
     heap_full_3x3 !! next = None ∧ h' !! next = Some g ∧
     h' !! 1%positive = Some (Fin <$> field_full_3x3) ∧
     ∀ l, l ≠ next → h' !! l = heap_full_3x3 !! l) ∧
  (∃ next g h',
     evaporatePheromones 1%positive (Fin (1 # 2)) heap_full_3x3
       = Some (next, h') ∧
     heap_full_3x3 !! next = None ∧ h' !! next = Some g ∧
     h' !! 1%positive = Some (Fin <$> field_full_3x3) ∧
     ∀ l, l ≠ next → h' !! l = heap_full_3x3 !! l).
Proof.
  apply (steps_leave_input_untouched heap_full_3x3 1%positive
           (Fin <$> field_full_3x3) 3 3 (Fin (1 # 4)) (Fin (1 # 2))).
  reflexivity.
Defined.



End pheromone_claims.

(* ================================================================= *)
(** * The claims about the spatial hash *)

Section hash_claims.
Local Open Scope Z_scope.



(** C7. [worldToGrid] and [getCellKey] compute the same cell coordinates:
    for every position and cell size the key is built from the pair
    [(floor(x/s), floor(y/s))] that [worldToGrid] returns, and for finite
    inputs two positions get the same key exactly when [worldToGrid] sends
    them to the same pair. *)
Theorem worldToGrid_matches_getCellKey :
  (∀ wx wy s : num,
     gx (worldToGrid wx wy s) = floor (div wx s) ∧
     gy (worldToGrid wx wy s) = floor (div wy s) ∧
     getCellKey {| x := wx; y := wy |} s
     = key_of (gx (worldToGrid wx wy s)) (gy (worldToGrid wx wy s))) ∧
  (∀ a b a' b' s : Q, ¬ (s == 0)%Q →
     getCellKey {| x := Fin a; y := Fin b |} (Fin s)
     = getCellKey {| x := Fin a'; y := Fin b' |} (Fin s) ↔
     worldToGrid (Fin a) (Fin b) (Fin s) = worldToGrid (Fin a') (Fin b') (Fin s)).
Proof.
  split; [done|].
  intros a b a' b' s Hs. unfold getCellKey, worldToGrid. cbn [x y].
  rewrite !floor_div_fin by done. rewrite key_of_Z_inj. split.
  - by intros [-> ->].
  - by intros [= Hx Hy].
Qed.

Lemma worldToGrid_matches_getCellKey_witness :
  getCellKey {| x := Fin 75; y := Fin 125 |} (Fin 50)
  = getCellKey {| x := Fin 51; y := Fin 149 |} (Fin 50) ↔
  worldToGrid (Fin 75) (Fin 125) (Fin 50) = worldToGrid (Fin 51) (Fin 149) (Fin 50).
Proof.
  apply (proj2 worldToGrid_matches_getCellKey 75%Q 125%Q 51%Q 149%Q 50%Q).
  discriminate.
Defined.



End hash_claims.

(* ================================================================= *)
(** * Further properties of the pheromone field *)

Section pheromone_extras.
Local Open Scope Z_scope.



(** X2. On a grid with at most two columns or at most two rows every cell
    is a boundary cell: a diffusion step does exactly what an evaporation
    step does, whatever the diffusion rate. *)
Theorem thin_grid_only_evaporates (h : heap) field f cols rows d e :
  h !! field = Some f → Z.of_nat (length f) = cols * rows →
  1 ≤ cols → 1 ≤ rows → cols ≤ 2 ∨ rows ≤ 2 →
  diffusePheromones field cols rows d e h = evaporatePheromones field e h.
Proof.
  intros Hf Hsize Hcols Hrows Hthin.
  destruct (diffuse_spec h field f cols rows d e Hf Hsize Hcols Hrows)
    as (g & -> & Hlen & Hg).
  destruct (evaporate_spec h field f e Hf) as (g' & -> & Hlen' & Hg').
  do 3 f_equal. apply list_eq_index; [congruence|].
  intros i Hi. rewrite Hg' by lia.
  destruct (flat_index_split cols rows i) as (x & y & Hx & Hy & ->); [lia..|].
  rewrite Hg by done. symmetry. apply step_cell_boundary; lia.
Qed.

Lemma thin_grid_only_evaporates_witness :
  diffusePheromones 1%positive 9 1 (Fin (1 # 4)) (Fin (1 # 2)) heap_full_3x3
  = evaporatePheromones 1%positive (Fin (1 # 2)) heap_full_3x3.
Proof.
  apply (thin_grid_only_evaporates heap_full_3x3 1%positive
           (Fin <$> field_full_3x3) 9 1 (Fin (1 # 4)) (Fin (1 # 2)));
    [reflexivity|reflexivity|lia|lia|right; lia].
Defined.















(** X10. A deposit is seen at its own cell only: after a deposit at an
    in-bounds [(x, y)], a read at any other in-bounds [(x', y')] returns
    what was there before. *)
Theorem deposit_then_read_elsewhere (h : heap) field f cols rows
    x y x' y' amount m :
  h !! field = Some f → Z.of_nat (length f) = cols * rows →
  0 ≤ x < cols → 0 ≤ y < rows → 0 ≤ x' < cols → 0 ≤ y' < rows →
  (x', y') ≠ (x, y) →
  ∃ old h',
    getPheromoneAt field cols rows x' y' h = Some (old, h) ∧
    (depositPheromone field cols rows x y amount m;;
     getPheromoneAt field cols rows x' y') h = Some (old, h').
Proof.
  intros Hf Hsize Hx Hy Hx' Hy' Hne.
  eexists _, _. split; [by apply read_in|].
  rewrite (run_bind _ _ _ _ _ (deposit_in h field f cols rows x y amount m Hf Hx Hy)).
  rewrite (read_in _ field _ cols rows x' y' (lookup_insert_eq _ _ _) Hx' Hy').
  rewrite index_store_ne; [done|].
  intros Heq. apply Hne. symmetry in Heq.
  by destruct (flat_index_inj cols x' y' x y Hx' Hx Heq) as [-> ->].
Qed.

Lemma deposit_then_read_elsewhere_witness :
  ∃ old h',
    getPheromoneAt 1%positive 3 3 1 1 heap_3x3 = Some (old, heap_3x3) ∧
    (depositPheromone 1%positive 3 3 2 1 (Fin 7) (Fin 100);;
     getPheromoneAt 1%positive 3 3 1 1) heap_3x3 = Some (old, h').
Proof.
  apply (deposit_then_read_elsewhere heap_3x3 1%positive (Fin <$> field_3x3)
           3 3 2 1 1 1 (Fin 7) (Fin 100));
    [reflexivity|reflexivity|lia|lia|lia|lia|discriminate].
Defined.

Lemma worldToGrid_fin (a b s : Q) :
  ¬ (s == 0)%Q →
  worldToGrid (Fin a) (Fin b) (Fin s)
  = {| gx := of_Z (cell_coord a s); gy := of_Z (cell_coord b s) |}.
Proof. intros Hs. unfold worldToGrid. by rewrite !floor_div_fin. Qed.







End pheromone_extras.

(* ================================================================= *)
(** * Further properties of the spatial hash *)

Section hash_extras.
Local Open Scope Z_scope.

(** X14. A bucket of a built grid holds exactly the boids of the list whose
    cell key is the key of the bucket, in the order of the list, and no
    bucket is empty. *)
Theorem buckets_hold_cells_in_order (boids : list Boid) (s : num)
    (key : string) (bucket : list Boid) :
  buildSpatialHash boids s !! key = Some bucket ↔
  bucket ≠ [] ∧ bucket = filter (λ b, getCellKey (pos b) s = key) boids.
Proof.
  rewrite build_lookup. destruct (filter _ boids) as [|b l].
  - split; [done|]. by intros [? ->].
  - split; [by intros [= <-]|]. by intros [_ ->].
Qed.

Lemma buckets_hold_cells_in_order_witness :
  buildSpatialHash three_boids (Fin 100) !! "0,0" = Some [boid_at 50 50] ∧
  buildSpatialHash three_boids (Fin 100) !! "5,5" = None.
Proof.
  split.
  - apply (proj2 (buckets_hold_cells_in_order three_boids (Fin 100) "0,0"
                    [boid_at 50 50])).
    split; [discriminate|reflexivity].
  - destruct (buildSpatialHash three_boids (Fin 100) !! "5,5")
      as [bucket|] eqn:Hbucket; [|reflexivity].
    destruct (proj1 (buckets_hold_cells_in_order three_boids (Fin 100) "5,5"
                       bucket) Hbucket) as [Hne Heq].
    destruct Hne. exact Heq.
Defined.

(** X15. [getCellCount] of a built grid is the number of different cell
    keys among the boids: at most the number of boids, and 0 only for the
    empty list. *)
Theorem cell_count_is_number_of_keys (boids : list Boid) (s : num) :
  getCellCount (buildSpatialHash boids s)
  = length (remove_dups ((λ b, getCellKey (pos b) s) <$> boids)) ∧
  (getCellCount (buildSpatialHash boids s) ≤ length boids)%nat ∧
  (getCellCount (buildSpatialHash boids s) = 0%nat ↔ boids = []).
Proof.
  assert (getCellCount (buildSpatialHash boids s)
          = length (remove_dups ((λ b, getCellKey (pos b) s) <$> boids)))
    as Hcount.
  { unfold getCellCount. rewrite <- size_dom, build_dom.
    apply size_list_to_set_dups. }
  split; [done|]. rewrite Hcount. split.
  - etrans; [apply length_remove_dups_le|]. by rewrite length_fmap.
  - split; [|by intros ->].
    destruct boids as [|b boids]; [done|]. intros Hlen.
    apply nil_length_inv in Hlen.
    assert (getCellKey (pos b) s ∈
      remove_dups ((λ b, getCellKey (pos b) s) <$> b :: boids)) as Hin
      by (apply elem_of_remove_dups; left).
    rewrite Hlen in Hin. by apply elem_of_nil in Hin.
Qed.

Lemma cell_count_is_number_of_keys_witness :
  getCellCount (buildSpatialHash (boid_at 60 60 :: three_boids) (Fin 100))
  = 3%nat.
Proof.
  rewrite (proj1 (cell_count_is_number_of_keys (boid_at 60 60 :: three_boids)
                    (Fin 100))).
  reflexivity.
Defined.

(** X16. [getAllBoids] of a built grid returns the boids given, each as
    often as it was given, in some order; its grid has the buckets and the
    cell count of the unordered grid. *)
Theorem getAllBoids_returns_the_boids (boids : list Boid) (s : num) :
  OrderedGrid.getAllBoids (OrderedGrid.buildSpatialHash boids s) ≡ₚ boids ∧
  OrderedGrid.to_gmap (OrderedGrid.buildSpatialHash boids s)
    = buildSpatialHash boids s ∧
  OrderedGrid.getCellCount (OrderedGrid.buildSpatialHash boids s)
    = getCellCount (buildSpatialHash boids s).
Proof.
  split; [|split].
  - unfold OrderedGrid.buildSpatialHash.
    apply (foldl_invariant (λ grid seen, OrderedGrid.getAllBoids grid ≡ₚ seen)).
    + done.
    + intros grid seen b IH. cbv zeta. set (k := key_of _ _).
      rewrite getAllBoids_concat in IH.
      destruct (OrderedGrid.grid_has grid k) eqn:Hhas.
      * apply bool_decide_eq_true in Hhas as [bucket Hbucket].
        rewrite Hbucket, getAllBoids_concat.
        rewrite (grid_set_push grid k bucket b Hbucket), IH.
        apply Permutation_cons_append.
      * apply bool_decide_eq_false in Hhas.
        assert (OrderedGrid.grid_get grid k = None) as Hnone.
        { destruct (OrderedGrid.grid_get grid k); [|done].
          destruct Hhas. by eexists. }
        rewrite grid_get_set_eq, getAllBoids_concat.
        rewrite (grid_set_push _ k [] b) by apply grid_get_set_eq.
        rewrite (grid_set_new grid k [] Hnone), fmap_app, join_app. simpl.
        rewrite app_nil_r, IH. apply Permutation_cons_append.
  - apply to_gmap_build.
  - unfold OrderedGrid.getCellCount, getCellCount.
    rewrite <- to_gmap_build. unfold OrderedGrid.to_gmap.
    rewrite map_size_list_to_map by apply NoDup_build_keys. done.
Qed.

Lemma getAllBoids_returns_the_boids_witness :
  OrderedGrid.getAllBoids
    (OrderedGrid.buildSpatialHash (boid_at 60 60 :: three_boids) (Fin 100))
  ≡ₚ boid_at 60 60 :: three_boids.
Proof.
  apply (proj1 (getAllBoids_returns_the_boids (boid_at 60 60 :: three_boids)
                  (Fin 100))).
Defined.

(** X17. Every candidate of a query comes from the list the grid was built
    from, whatever the positions and the cell size; a grid built from no
    boid gives no candidate. *)
Theorem candidates_come_from_the_list (boids : list Boid) (s : num)
    (q b : Boid) :
  (b ∈ getNeighbors q (buildSpatialHash boids s) s → b ∈ boids) ∧
  getNeighbors q (buildSpatialHash [] s) s = [].
Proof.
  split.
  - rewrite elem_of_getNeighbors.
    intros (dx & dy & bucket & _ & _ & Hbucket & Hin).
    by destruct (proj1 (build_buckets boids s _ b)
                  (ex_intro _ bucket (conj Hbucket Hin))) as [? _].
  - by rewrite getNeighbors_concat.
Qed.

Lemma candidates_come_from_the_list_witness :
  boid_at 100 100 ∈ three_boids.
Proof.
  apply (proj1 (candidates_come_from_the_list three_boids (Fin 50)
                  (boid_at 50 50) (boid_at 100 100))).
  apply list_elem_of_In. vm_compute. tauto.
Defined.

(** X18. A boid of the list is always among its own candidates, whatever
    its position and the cell size, zero and non-finite values included. *)
Theorem query_returns_the_boid_itself (boids : list Boid) (s : num) (q : Boid) :
  q ∈ boids → q ∈ getNeighbors q (buildSpatialHash boids s) s.
Proof.
  intros Hq. apply elem_of_getNeighbors.
  destruct (proj2 (build_buckets boids s (getCellKey (pos q) s) q))
    as (bucket & Hbucket & Hin); [done|].
  exists 0, 0, bucket. split; [lia|]. split; [lia|]. split; [|done].
  rewrite <- Hbucket. f_equal. unfold getCellKey, key_of.
  assert (∀ a : num, toString (add (floor a) (of_Z 0)) = toString (floor a))
    as Hzero.
  { intros [c| | |]; [|done..].
    change (toString (add (of_Z (Qfloor c)) (of_Z 0))
            = toString (of_Z (Qfloor c))).
    by rewrite add_of_Z, toString_of_Z, Z.add_0_r. }
  by rewrite !Hzero.
Qed.

Lemma query_returns_the_boid_itself_witness :
  boid_at 50 50 ∈ getNeighbors (boid_at 50 50)
                    (buildSpatialHash three_boids (Fin 0)) (Fin 0).
Proof.
  apply (query_returns_the_boid_itself three_boids (Fin 0) (boid_at 50 50)).
  apply list_elem_of_In. simpl. tauto.
Defined.







End hash_extras.
